(** * SnapshotManager (src/main/generic/SnapshotManager.js)

    A shallow embedding of the snapshot registry of jungle-db: the objects it
    touches live in a heap indexed by references, so that the aliasing the
    JavaScript code relies on (one Snapshot object reachable from two
    registries, [this] stored in a field) is visible in the model. *)

From stdpp Require Import gmap strings list fin_maps.

(** ** Values and objects *)

(** Object identities. *)
Abbreviation ref := nat.

(** The JavaScript values the registry handles: primitives, error objects
    (by name) and references to heap objects. *)
Inductive value :=
  | VUndefined
  | VNull
  | VNum (n : Z)
  | VStr (s : string)
  | VError (name : string)
  | VObj (r : ref).

#[global] Instance value_eq_dec : EqDecision value.
Proof. solve_decision. Defined.

(** A pre-image kept by a snapshot: a value, or [None] for
    "the key did not exist". *)
Abbreviation Diff := (gmap string (option string)).

(** [new Snapshot(objectStore, backend)]: the two constructor arguments and
    the sparse diff.  The class itself is not part of SnapshotManager.js; the
    registry reads and writes the [_backend] field only. *)
Record Snapshot := mkSnapshot {
  _objectStore : value;
  _backend : value;
  _diff : Diff
}.

(** [class SnapshotManager]: its only field is the Set [_snapshots]. *)
Record SnapshotManager := mkSnapshotManager {
  _snapshots : list ref
}.

(** What the registry uses of a Transaction: the field [_snapshotManager]
    (line 54).  [tx_writes] is the write-set of the transaction: pairs of a
    key and its new value, [None] standing for a removal. *)
Record Transaction := mkTransaction {
  _snapshotManager : ref;
  tx_writes : list (string * option string)
}.

Inductive object :=
  | OSnapshot (s : Snapshot)
  | OSnapshotManager (m : SnapshotManager)
  | OTransaction (t : Transaction)
  | OOpaque.

Abbreviation heap := (gmap ref object).

(** A method either returns or throws. *)
Inductive completion (A : Type) :=
  | Return (a : A)
  | Throw (e : value).
Arguments Return {A} a.
Arguments Throw {A} e.

(** The error raised by the engine when a property of [undefined] is used or
    a non-iterable is iterated. *)
Definition TypeError : value := VError "TypeError"%string.

(** ** The JavaScript [Set] of object references

    Insertion ordered, no duplicates, membership by identity. *)
Module JSSet.

Definition has (x : ref) (s : list ref) : bool := bool_decide (x ∈ s).

(** [s.add(x)]: appends [x] unless it is already a member. *)
Definition add (x : ref) (s : list ref) : list ref :=
  if has x s then s else s ++ [x].

(** [s.delete(x)]: the set without [x], and whether [x] was a member. *)
Definition delete (x : ref) (s : list ref) : list ref * bool :=
  (filter (λ y, y ≠ x) s, has x s).

End JSSet.

(** ** Reading the heap *)

(** [m._snapshots], when [m] is a SnapshotManager. *)
Definition registry (h : heap) (m : ref) : option (list ref) :=
  match h !! m with
  | Some (OSnapshotManager sm) => Some (_snapshots sm)
  | _ => None
  end.

(** [s._backend], when [s] is a Snapshot. *)
Definition backend_of (h : heap) (s : ref) : option value :=
  match h !! s with
  | Some (OSnapshot sn) => Some (_backend sn)
  | _ => None
  end.

(** [s]'s diff, when [s] is a Snapshot. *)
Definition diff_of (h : heap) (s : ref) : option Diff :=
  match h !! s with
  | Some (OSnapshot sn) => Some (_diff sn)
  | _ => None
  end.

(** [tx instanceof Transaction]. *)
Definition instanceof_Transaction (h : heap) (tx : value) : bool :=
  match tx with
  | VObj r => match h !! r with Some (OTransaction _) => true | _ => false end
  | _ => false
  end.

(** [tx._snapshotManager._snapshots], the nested registry of a transaction. *)
Definition nested_registry (h : heap) (tx : value) : option (list ref) :=
  match tx with
  | VObj r =>
      match h !! r with
      | Some (OTransaction t) => registry h (_snapshotManager t)
      | _ => None
      end
  | _ => None
  end.

(** [o] owns the registry [m]: [o._snapshotManager === m]. *)
Definition owns (h : heap) (o m : ref) : Prop :=
  ∃ t, h !! o = Some (OTransaction t) ∧ _snapshotManager t = m.

(** ** The methods of SnapshotManager *)

(** [this._snapshots.add(x)] as a heap update. *)
Definition snapshots_add (x : ref) (o : object) : object :=
  match o with
  | OSnapshotManager m => OSnapshotManager (mkSnapshotManager (JSSet.add x (_snapshots m)))
  | _ => o
  end.

(** [snapshot._backend = b] as a heap update. *)
Definition set_backend (b : value) (o : object) : object :=
  match o with
  | OSnapshot s => OSnapshot (mkSnapshot (_objectStore s) b (_diff s))
  | _ => o
  end.

(** Lines 19-23. [new Snapshot] allocates a fresh object with an empty diff. *)
Definition createSnapshot (h : heap) (this : ref) (objectStore backend : value)
  : heap * completion ref :=
  let snapshot := fresh (dom h) in
  let h1 := <[snapshot := OSnapshot (mkSnapshot objectStore backend ∅)]> h in
  match registry h1 this with
  | Some _ => (alter (snapshots_add snapshot) this h1, Return snapshot)
  | None => (h1, Throw TypeError)
  end.

(** Lines 31-33. *)
Definition abortSnapshot (h : heap) (this : ref) (snapshot : ref)
  : heap * completion bool :=
  match registry h this with
  | Some own =>
      let '(rest, was_present) := JSSet.delete snapshot own in
      (<[this := OSnapshotManager (mkSnapshotManager rest)]> h, Return was_present)
  | None => (h, Throw TypeError)
  end.

(** One call [snapshot._apply(tx)]: the receiver and the argument. *)
Record call := mkCall {
  call_snapshot : ref;
  call_tx : value
}.

#[global] Instance call_eq_dec : EqDecision call.
Proof. solve_decision. Defined.

(** The body of the second loop (lines 55-56). *)
Definition adopt (this : ref) (h : heap) (snapshot : ref) : heap :=
  alter (snapshots_add snapshot) this (alter (set_backend (VObj this)) snapshot h).

(** What running the body of [applyTx] leaves behind: the heap, the calls
    [snapshot._apply(tx)] made, in order, and either the array
    [applications] handed to [Promise.all] (one promise per call) or the
    value thrown. *)
Record body_result := mkBody {
  b_heap : heap;
  b_calls : list call;
  b_completion : completion (list call)
}.

(** Lines 43-58, up to the call of [Promise.all].  Registry members are
    Snapshot instances ([createSnapshot] and adoption are the only ways into
    the Set), so [snapshot._apply] always dispatches.  [_apply] is
    asynchronous: the call returns a promise and never throws; what the
    capture does to its snapshot's diff and how its promise settles is left
    to the capture task (see [event] below).  The second loop iterates the
    Set of [tx._snapshotManager] while adding to the Set of [this]; when the
    two are one object every element added is a member already, so the loop
    runs over the elements the Set had when it started. *)
Definition applyTx_body (h : heap) (this : ref) (tx : value) : body_result :=
  if negb (instanceof_Transaction h tx) then
    mkBody h [] (Throw (VStr "Can only apply transactions"%string))
  else
    match registry h this with
    | None => mkBody h [] (Throw TypeError)
    | Some own =>
        let applications := (λ snapshot, mkCall snapshot tx) <$> own in
        match nested_registry h tx with
        | None => mkBody h applications (Throw TypeError)
        | Some theirs =>
            mkBody (foldl (adopt this) h theirs) applications (Return applications)
        end
    end.

(** ** Promises

    [applyTx] is an [async] function without [await]: its body runs to the
    end synchronously, and the promise it returns is rejected with what the
    body throws, or follows the promise of [Promise.all(applications)]. *)

Inductive pstate (A : Type) :=
  | Pending
  | Fulfilled (a : A)
  | Rejected (e : value).
Arguments Pending {A}.
Arguments Fulfilled {A} a.
Arguments Rejected {A} e.

(** How a capture promise settles. *)
Inductive settlement :=
  | Fulfil (v : value)
  | Reject (e : value).

Definition settle (o : settlement) : pstate value :=
  match o with
  | Fulfil v => Fulfilled v
  | Reject e => Rejected e
  end.

(** [Promise.all] as ECMAScript defines it: an array of values with holes,
    the count of elements still awaited, and the promise that is returned. *)
Module PromiseAll.

Record t := mk {
  values : list (option value);
  remaining : nat;
  result : pstate (list value)
}.

(** The array a fulfilled [Promise.all] carries. *)
Definition collect (vs : list (option value)) : list value :=
  default VUndefined <$> vs.

(** [Promise.all] over [n] promises; over none, it is fulfilled at once. *)
Definition create (n : nat) : t :=
  mk (replicate n None) n (match n with 0 => Fulfilled [] | S _ => Pending end).

(** A promise is resolved or rejected once; later attempts are ignored. *)
Definition resolve (vs : list value) (r : pstate (list value)) : pstate (list value) :=
  match r with Pending => Fulfilled vs | _ => r end.

(** The reaction to the fulfilment of element [i]. *)
Definition resolve_element (i : nat) (v : value) (p : t) : t :=
  let values' := <[i := Some v]> (values p) in
  let remaining' := pred (remaining p) in
  mk values' remaining'
     (match remaining' with
      | 0 => resolve (collect values') (result p)
      | S _ => result p
      end).

(** The reaction to the rejection of any element. *)
Definition reject (e : value) (p : t) : t :=
  mk (values p) (remaining p)
     (match result p with Pending => Rejected e | r => r end).

Definition react (i : nat) (o : settlement) (p : t) : t :=
  match o with
  | Fulfil v => resolve_element i v p
  | Reject e => reject e p
  end.

End PromiseAll.

(** The promise returned by the [async] function. *)
Inductive returned :=
  | BodyThrew (e : value)
  | Following (p : PromiseAll.t).

(** The state of a call of [applyTx] from the moment its body has run. *)
Record task := mkTask {
  t_heap : heap;
  t_calls : list call;
  t_captures : list (pstate value);
  t_returned : returned
}.

(** The state of the promise the caller of [applyTx] holds. *)
Definition promise_state (t : task) : pstate (list value) :=
  match t_returned t with
  | BodyThrew e => Rejected e
  | Following p => PromiseAll.result p
  end.

(** Lines 42-59. *)
Definition applyTx (h : heap) (this : ref) (tx : value) : task :=
  let b := applyTx_body h this tx in
  mkTask (b_heap b) (b_calls b) (replicate (length (b_calls b)) Pending)
         (match b_completion b with
          | Return applications => Following (PromiseAll.create (length applications))
          | Throw e => BodyThrew e
          end).

(** What happens after the body has returned. *)
Inductive event :=
  | EvSettle (i : nat) (o : settlement)
  | EvCapture (snapshot : ref) (key : string) (pre : option string).

(** Modelled from the spec: the effect of [Snapshot._apply] on its snapshot
    (class Snapshot is not in SnapshotManager.js).  A key absent from the diff
    receives its pre-image; a key already present is left untouched. *)
Definition capture (key : string) (pre : option string) (o : object) : object :=
  match o with
  | OSnapshot s =>
      match _diff s !! key with
      | None => OSnapshot (mkSnapshot (_objectStore s) (_backend s) (<[key := pre]> (_diff s)))
      | Some _ => o
      end
  | _ => o
  end.

(** [EvSettle i o]: the promise of the [i]-th call settles and the reaction
    [Promise.all] registered on it runs; a promise settles once.
    [EvCapture s k pre]: the capture running for [s] records a pre-image. *)
Definition deliver (t : task) (ev : event) : task :=
  match ev with
  | EvSettle i o =>
      match t_captures t !! i with
      | Some Pending =>
          mkTask (t_heap t) (t_calls t) (<[i := settle o]> (t_captures t))
                 (match t_returned t with
                  | Following p => Following (PromiseAll.react i o p)
                  | BodyThrew e => BodyThrew e
                  end)
      | _ => t
      end
  | EvCapture s k pre =>
      if bool_decide (s ∈ call_snapshot <$> t_calls t) then
        mkTask (alter (capture k pre) s (t_heap t)) (t_calls t) (t_captures t) (t_returned t)
      else t
  end.

Definition run (t : task) (evs : list event) : task := foldl deliver t evs.

(** ** The commit around [applyTx] *)

Abbreviation store := (gmap string string).

Definition write (st : store) (w : string * option string) : store :=
  match w.2 with
  | Some v => <[w.1 := v]> st
  | None => delete w.1 st
  end.

Definition apply_writes (ws : list (string * option string)) (st : store) : store :=
  foldl write st ws.

(** The write-set of [tx], when it is a transaction. *)
Definition writes_of (h : heap) (tx : value) : list (string * option string) :=
  match tx with
  | VObj r => match h !! r with Some (OTransaction t) => tx_writes t | _ => [] end
  | _ => []
  end.

Record commit_state := mkCommit {
  c_task : task;
  c_writes : list (string * option string);
  c_store : store
}.

Inductive commit_event :=
  | CTask (ev : event)
  | CWrite.

(** Modelled from the spec: the backend's commit, which calls [applyTx] and
    applies the write-set of [tx] to the store; it is not in
    SnapshotManager.js.  The store is written only once the promise of
    [applyTx] is fulfilled (spec 4.2, step 3). *)
Definition commit (h : heap) (st : store) (this : ref) (tx : value) : commit_state :=
  mkCommit (applyTx h this tx) (writes_of h tx) st.

Definition commit_deliver (c : commit_state) (ev : commit_event) : commit_state :=
  match ev with
  | CTask e => mkCommit (deliver (c_task c) e) (c_writes c) (c_store c)
  | CWrite =>
      match promise_state (c_task c) with
      | Fulfilled _ => mkCommit (c_task c) (c_writes c) (apply_writes (c_writes c) (c_store c))
      | _ => c
      end
  end.

Definition commit_run (c : commit_state) (evs : list commit_event) : commit_state :=
  foldl commit_deliver c evs.

(** ** The constructor and the iterator *)

(** Lines 6-8. [new SnapshotManager()]: a new object whose Set is empty. *)
Definition new_SnapshotManager (h : heap) : heap * ref :=
  let this := fresh (dom h) in
  (<[this := OSnapshotManager (mkSnapshotManager [])]> h, this).

(** Lines 65-67. [this._snapshots.values()], read to its end: the members in
    insertion order. *)
Definition Symbol_iterator (h : heap) (this : ref) : completion (list ref) :=
  match registry h this with
  | Some own => Return own
  | None => Throw TypeError
  end.

(** ** A small heap used in the examples

    [1] is a transaction owning the registry [2], which holds snapshot [6];
    [3] is a transaction committed into [1]: it owns the registry [4], which
    holds snapshot [5], created against [3]. *)
Definition example_heap : heap :=
  <[1 := OTransaction (mkTransaction 2 [])]>
  (<[2 := OSnapshotManager (mkSnapshotManager [6])]>
  (<[3 := OTransaction (mkTransaction 4 [("A"%string, Some "9"%string)])]>
  (<[4 := OSnapshotManager (mkSnapshotManager [5])]>
  (<[5 := OSnapshot (mkSnapshot (VObj 0) (VObj 3) ∅)]>
  (<[6 := OSnapshot (mkSnapshot (VObj 0) (VObj 1) ∅)]>
  (<[0 := OOpaque]> ∅)))))).

(** A second heap: as [example_heap], with two snapshots, [6] and [7], in the
    registry [2]. *)
Definition example_heap2 : heap :=
  <[7 := OSnapshot (mkSnapshot (VObj 0) (VObj 1) ∅)]>
  (<[2 := OSnapshotManager (mkSnapshotManager [6; 7])]> example_heap).

(** ** Vocabulary of the statements *)

(** The registry after the loop: every element of [theirs] added in turn. *)
Definition add_all (own theirs : list ref) : list ref :=
  foldl (λ acc s, JSSet.add s acc) own theirs.

(** How often [snapshot._apply] was called on [s]. *)
Definition times_applied (s : ref) (calls : list call) : nat :=
  length (filter (λ c, call_snapshot c = s) calls).

(** The value a capture promise was fulfilled with, if it was. *)
Definition fulfilled_value (c : pstate value) : option value :=
  match c with Fulfilled v => Some v | _ => None end.

(** The number of capture promises not fulfilled (pending or rejected). *)
Definition unfulfilled (caps : list (pstate value)) : nat :=
  length (filter (λ c, fulfilled_value c = None) caps).

(** What ties the record kept by [Promise.all] to the capture promises. *)
Definition all_inv (caps : list (pstate value)) (p : PromiseAll.t) : Prop :=
  PromiseAll.values p = fulfilled_value <$> caps ∧
  PromiseAll.remaining p = unfulfilled caps ∧
  match PromiseAll.result p with
  | Pending => 0 < unfulfilled caps ∧ ∀ e, Rejected e ∉ caps
  | Fulfilled vs => unfulfilled caps = 0 ∧ vs = PromiseAll.collect (fulfilled_value <$> caps)
  | Rejected e => Rejected e ∈ caps
  end.

Definition task_inv (t : task) : Prop :=
  length (t_captures t) = length (t_calls t) ∧
  match t_returned t with
  | Following p => all_inv (t_captures t) p
  | BodyThrew _ => True
  end.

(** What holds of a commit started with store [st]. *)
Definition commit_inv (st : store) (c : commit_state) : Prop :=
  task_inv (c_task c) ∧
  (c_store c = st ∨ ∃ vs, promise_state (c_task c) = Fulfilled vs).

(** * Properties *)

(** ** The Set *)

Section jsset.
  Implicit Types (x y : ref) (s : list ref).

Lemma JSSet_has_true x s : JSSet.has x s = true ↔ x ∈ s.
Proof. unfold JSSet.has. by rewrite bool_decide_eq_true. Qed.

Lemma JSSet_has_false x s : JSSet.has x s = false ↔ x ∉ s.
Proof. unfold JSSet.has. by rewrite bool_decide_eq_false. Qed.

Lemma JSSet_elem_of_add y x s : y ∈ JSSet.add x s ↔ y = x ∨ y ∈ s.
Proof.
  unfold JSSet.add. destruct (JSSet.has x s) eqn:E.
  - apply JSSet_has_true in E. split; [by right | by intros [->|]].
  - rewrite elem_of_app, list_elem_of_singleton. tauto.
Qed.

Lemma JSSet_add_member x s : x ∈ s → JSSet.add x s = s.
Proof. intros H. unfold JSSet.add. apply JSSet_has_true in H. by rewrite H. Qed.

Lemma JSSet_add_fresh x s : x ∉ s → JSSet.add x s = s ++ [x].
Proof. intros H. unfold JSSet.add. apply JSSet_has_false in H. by rewrite H. Qed.

Lemma JSSet_add_NoDup x s : NoDup s → NoDup (JSSet.add x s).
Proof.
  intros H. unfold JSSet.add. destruct (JSSet.has x s) eqn:E; [done|].
  apply JSSet_has_false in E. apply NoDup_app. split_and!; [done | | apply NoDup_singleton].
  intros y Hy ->%list_elem_of_singleton. done.
Qed.

Lemma JSSet_elem_of_delete y x s : y ∈ (JSSet.delete x s).1 ↔ y ≠ x ∧ y ∈ s.
Proof. unfold JSSet.delete. simpl. by rewrite list_elem_of_filter. Qed.

Lemma JSSet_delete_absent x s : x ∉ s → (JSSet.delete x s).1 = s.
Proof.
  intros H. unfold JSSet.delete. simpl. induction s as [|a s IH]; [done|].
  apply not_elem_of_cons in H as [Hne Hs].
  rewrite filter_cons_True by done. f_equal. by apply IH.
Qed.

End jsset.

(** ** Running the model *)

Example applyTx_example_calls :
  t_calls (applyTx example_heap 2 (VObj 3)) = [mkCall 6 (VObj 3)].
Proof. reflexivity. Qed.

Example applyTx_example_registry :
  registry (t_heap (applyTx example_heap 2 (VObj 3))) 2 = Some [6; 5].
Proof. reflexivity. Qed.

Example applyTx_example_nested :
  registry (t_heap (applyTx example_heap 2 (VObj 3))) 4 = Some [5].
Proof. reflexivity. Qed.

Example applyTx_example_backend :
  backend_of (t_heap (applyTx example_heap 2 (VObj 3))) 5 = Some (VObj 2).
Proof. reflexivity. Qed.

Example applyTx_example_fulfilled :
  promise_state (run (applyTx example_heap 2 (VObj 3)) [EvSettle 0 (Fulfil VUndefined)])
  = Fulfilled [VUndefined].
Proof. reflexivity. Qed.

Example abortSnapshot_example :
  (abortSnapshot example_heap 2 6).2 = Return true ∧
  (abortSnapshot (abortSnapshot example_heap 2 6).1 2 6).2 = Return false.
Proof. split; reflexivity. Qed.

Example createSnapshot_example :
  (createSnapshot example_heap 2 (VObj 0) (VObj 1)).2 = Return 7 ∧
  registry (createSnapshot example_heap 2 (VObj 0) (VObj 1)).1 2 = Some [6; 7].
Proof. split; vm_compute; reflexivity. Qed.

(** ** Heap updates seen through [registry], [backend_of] and [diff_of] *)

Section heap_lemmas.
  Implicit Types (h : heap) (this m s r : ref) (own : list ref).

Lemma registry_Some h m own :
  registry h m = Some own ↔ h !! m = Some (OSnapshotManager (mkSnapshotManager own)).
Proof.
  unfold registry. split.
  - destruct (h !! m) as [[| [l] | |]|]; naive_solver.
  - by intros ->.
Qed.

Lemma registry_insert_eq h m own :
  registry (<[m := OSnapshotManager (mkSnapshotManager own)]> h) m = Some own.
Proof. unfold registry. by rewrite lookup_insert_eq. Qed.

Lemma registry_insert_ne h m r o :
  r ≠ m → registry (<[r := o]> h) m = registry h m.
Proof. intros. unfold registry. by rewrite lookup_insert_ne. Qed.

End heap_lemmas.

(** ** abortSnapshot and createSnapshot *)

Lemma abortSnapshot_eq (h : heap) (this snapshot : ref) (own : list ref) :
  registry h this = Some own →
  abortSnapshot h this snapshot =
    (<[this := OSnapshotManager (mkSnapshotManager (filter (λ y, y ≠ snapshot) own))]> h,
     Return (bool_decide (snapshot ∈ own))).
Proof. intros Hown. unfold abortSnapshot. by rewrite Hown. Qed.

(** C8: [abortSnapshot(s)] removes [s] from the registry if it is there and
    returns whether it was; called twice in a row on the same [s] it returns
    [true] (for a registered [s]) and then [false], throws neither time, and
    the second call leaves the heap, hence the registry, as it was. *)
Theorem abortSnapshot_twice (h : heap) (this snapshot : ref) (own : list ref) :
  registry h this = Some own →
  let first := abortSnapshot h this snapshot in
  let second := abortSnapshot first.1 this snapshot in
  first.2 = Return (bool_decide (snapshot ∈ own)) ∧
  registry first.1 this = Some (filter (λ y, y ≠ snapshot) own) ∧
  (snapshot ∈ own → first.2 = Return true) ∧
  second.2 = Return false ∧
  second.1 = first.1.
Proof.
  intros Hown. cbv zeta.
  assert (Hgone : snapshot ∉ filter (λ y, y ≠ snapshot) own).
  { rewrite list_elem_of_filter. intros [Hne _]. by apply Hne. }
  rewrite (abortSnapshot_eq _ _ _ _ Hown). cbn [fst snd].
  rewrite (abortSnapshot_eq _ _ _ _ (registry_insert_eq _ _ _)). cbn [fst snd].
  split_and!.
  - done.
  - apply registry_insert_eq.
  - intros Hin. by rewrite bool_decide_eq_true_2.
  - by rewrite bool_decide_eq_false_2.
  - rewrite insert_insert_eq. do 3 f_equal.
    by apply (JSSet_delete_absent snapshot).
Qed.

Lemma abortSnapshot_twice_witness :
  (abortSnapshot example_heap 2 6).2 = Return true ∧
  (abortSnapshot (abortSnapshot example_heap 2 6).1 2 6).2 = Return false ∧
  (abortSnapshot (abortSnapshot example_heap 2 6).1 2 6).1 = (abortSnapshot example_heap 2 6).1.
Proof.
  destruct (abortSnapshot_twice example_heap 2 6 [6] eq_refl) as (_ & _ & Htrue & Hfalse & Hsame).
  split_and!; [apply Htrue; by apply list_elem_of_singleton | exact Hfalse | exact Hsame].
Defined.

Lemma createSnapshot_eq (h : heap) (this : ref) (own : list ref) (objectStore backend : value) :
  registry h this = Some own →
  createSnapshot h this objectStore backend =
    (<[this := OSnapshotManager (mkSnapshotManager (JSSet.add (fresh (dom h)) own))]>
       (<[fresh (dom h) := OSnapshot (mkSnapshot objectStore backend ∅)]> h),
     Return (fresh (dom h))).
Proof.
  intros Hown. unfold createSnapshot.
  assert (Hne : fresh (dom h) ≠ this).
  { intros Heq. apply registry_Some in Hown.
    apply (is_fresh (dom h)). rewrite Heq. apply elem_of_dom. eauto. }
  rewrite registry_insert_ne, Hown by done. f_equal.
  apply map_eq. intros r. rewrite lookup_alter.
  destruct (decide (this = r)) as [<-|Hr].
  - rewrite lookup_insert_eq, lookup_insert_ne by done.
    apply registry_Some in Hown. by rewrite Hown.
  - by rewrite (lookup_insert_ne _ this r) by done.
Qed.

(** C10: [abortSnapshot(s)] changes the membership of [s] in this registry
    and nothing else: every other member stays, no diff and no backend is
    touched, every object but the registry is as before.  [createSnapshot]
    appends exactly one element, a new object, and leaves every object that
    existed before, the registry apart, as it was. *)
Theorem abort_create_frame (h : heap) (this : ref) (own : list ref) :
  registry h this = Some own →
  Forall (λ s, is_Some (h !! s)) own →
  (∀ snapshot,
     let h' := (abortSnapshot h this snapshot).1 in
     (∃ rest, registry h' this = Some rest ∧
              ∀ s', s' ≠ snapshot → (s' ∈ rest ↔ s' ∈ own)) ∧
     (∀ s', diff_of h' s' = diff_of h s' ∧ backend_of h' s' = backend_of h s') ∧
     (∀ r, r ≠ this → h' !! r = h !! r)) ∧
  (∀ objectStore backend,
     let created := createSnapshot h this objectStore backend in
     ∃ snapshot,
       created.2 = Return snapshot ∧
       h !! snapshot = None ∧
       (snapshot ∉ own) ∧
       registry created.1 this = Some (own ++ [snapshot]) ∧
       (created.1) !! snapshot = Some (OSnapshot (mkSnapshot objectStore backend ∅)) ∧
       ∀ r, r ≠ this → r ≠ snapshot → (created.1) !! r = h !! r).
Proof.
  intros Hown Hlive. split.
  - intros snapshot. cbv zeta. rewrite (abortSnapshot_eq _ _ _ _ Hown). cbn [fst].
    split_and!.
    + eexists. split; [apply registry_insert_eq|].
      intros s' Hne. rewrite list_elem_of_filter. tauto.
    + intros s'. unfold diff_of, backend_of.
      destruct (decide (this = s')) as [<-|Hne].
      * rewrite lookup_insert_eq. apply registry_Some in Hown. by rewrite Hown.
      * by rewrite lookup_insert_ne by done.
    + intros r Hne. by rewrite lookup_insert_ne by done.
  - intros objectStore backend. cbv zeta.
    rewrite (createSnapshot_eq _ _ _ _ _ Hown). cbn [fst snd].
    assert (Hnone : h !! fresh (dom h) = None).
    { apply not_elem_of_dom, is_fresh. }
    assert (Hnew : fresh (dom h) ∉ own).
    { intros Hin. rewrite Forall_forall in Hlive.
      destruct (Hlive _ Hin) as [o Ho]. congruence. }
    assert (Hne : fresh (dom h) ≠ this).
    { intros Heq. apply registry_Some in Hown. congruence. }
    exists (fresh (dom h)). split_and!; try done.
    + rewrite JSSet_add_fresh by done. apply registry_insert_eq.
    + rewrite lookup_insert_ne by done. apply lookup_insert_eq.
    + intros r Hr1 Hr2. by rewrite !lookup_insert_ne by done.
Qed.

Lemma abort_create_frame_witness :
  (∃ rest, registry (abortSnapshot example_heap 2 6).1 2 = Some rest ∧
           ∀ s', s' ≠ 6 → (s' ∈ rest ↔ s' ∈ [6])) ∧
  (∃ snapshot,
     (createSnapshot example_heap 2 (VObj 0) (VObj 1)).2 = Return snapshot ∧
     (snapshot ∉ [6]) ∧
     registry (createSnapshot example_heap 2 (VObj 0) (VObj 1)).1 2 = Some ([6] ++ [snapshot])).
Proof.
  assert (Hlive : Forall (λ s, is_Some (example_heap !! s)) [6]).
  { repeat constructor. by eexists. }
  destruct (abort_create_frame example_heap 2 [6] eq_refl Hlive) as [Habort Hcreate].
  split.
  - exact (proj1 (Habort 6)).
  - destruct (Hcreate (VObj 0) (VObj 1)) as (s & H1 & _ & H2 & H3 & _). eauto.
Defined.

(** ** Adoption (the second loop of applyTx) *)

Section adoption.
  Implicit Types (h : heap) (this m s r : ref) (own theirs : list ref).

Lemma adopt_lookup h this s r :
  adopt this h s !! r =
    (if decide (this = r) then snapshots_add s else id) <$>
      ((if decide (s = r) then set_backend (VObj this) else id) <$> h !! r).
Proof.
  unfold adopt. rewrite !lookup_alter.
  destruct (decide (this = r)) as [->|]; destruct (decide (s = r)) as [->|];
    rewrite ?lookup_alter_eq, ?lookup_alter_ne by done;
    by destruct (h !! r).
Qed.

Lemma adopt_registry_this h this s own :
  registry h this = Some own →
  registry (adopt this h s) this = Some (JSSet.add s own).
Proof.
  rewrite !registry_Some. intros H. rewrite adopt_lookup, H.
  destruct (decide (this = this)); [|done]. by destruct (decide (s = this)).
Qed.

Lemma adopt_registry_other h this s m :
  m ≠ this → registry (adopt this h s) m = registry h m.
Proof.
  intros Hne. unfold registry. rewrite adopt_lookup.
  destruct (decide (this = m)); [done|].
  destruct (decide (s = m)); by destruct (h !! m) as [[]|].
Qed.

Lemma adopt_backend_eq h this s :
  backend_of (adopt this h s) s = (λ _, VObj this) <$> backend_of h s.
Proof.
  unfold backend_of. rewrite adopt_lookup.
  destruct (decide (s = s)); [|done].
  destruct (decide (this = s)); by destruct (h !! s) as [[]|].
Qed.

Lemma adopt_backend_ne h this s r :
  s ≠ r → backend_of (adopt this h s) r = backend_of h r.
Proof.
  intros Hne. unfold backend_of. rewrite adopt_lookup.
  destruct (decide (s = r)); [done|].
  destruct (decide (this = r)); by destruct (h !! r) as [[]|].
Qed.

Lemma adopt_diff h this s r : diff_of (adopt this h s) r = diff_of h r.
Proof.
  unfold diff_of. rewrite adopt_lookup.
  destruct (decide (this = r)); destruct (decide (s = r)); by destruct (h !! r) as [[]|].
Qed.

Lemma adopt_transaction h this s r t :
  adopt this h s !! r = Some (OTransaction t) ↔ h !! r = Some (OTransaction t).
Proof.
  rewrite adopt_lookup.
  destruct (decide (this = r)); destruct (decide (s = r));
    destruct (h !! r) as [[]|]; simpl; naive_solver.
Qed.

Lemma elem_of_add_all s own theirs : s ∈ add_all own theirs ↔ s ∈ own ∨ s ∈ theirs.
Proof.
  unfold add_all. revert own. induction theirs as [|x theirs IH]; intros own; simpl.
  - rewrite elem_of_nil. tauto.
  - rewrite IH, JSSet_elem_of_add, elem_of_cons. tauto.
Qed.

Lemma add_all_members own theirs : theirs ⊆ own → add_all own theirs = own.
Proof.
  unfold add_all. induction theirs as [|x theirs IH]; intros Hsub; simpl; [done|].
  rewrite JSSet_add_member by (apply Hsub; left). apply IH.
  intros y Hy. apply Hsub. by right.
Qed.

Lemma add_all_NoDup own theirs : NoDup own → NoDup (add_all own theirs).
Proof.
  unfold add_all. revert own. induction theirs as [|x theirs IH]; intros own Hnd; simpl; [done|].
  by apply IH, JSSet_add_NoDup.
Qed.

Lemma add_all_prefix own theirs : own `prefix_of` add_all own theirs.
Proof.
  unfold add_all. revert own. induction theirs as [|x theirs IH]; intros own; simpl; [done|].
  etrans; [|apply IH]. unfold JSSet.add. destruct (JSSet.has x own); [done|].
  by apply prefix_app_r.
Qed.

Lemma adopt_all_registry_this h this own theirs :
  registry h this = Some own →
  registry (foldl (adopt this) h theirs) this = Some (add_all own theirs).
Proof.
  unfold add_all. revert h own. induction theirs as [|x theirs IH]; intros h own Hown; simpl; [done|].
  apply IH. by apply adopt_registry_this.
Qed.

Lemma adopt_all_registry_other h this m theirs :
  m ≠ this → registry (foldl (adopt this) h theirs) m = registry h m.
Proof.
  intros Hne. revert h. induction theirs as [|x theirs IH]; intros h; simpl; [done|].
  rewrite IH. by apply adopt_registry_other.
Qed.

Lemma adopt_all_backend_other h this theirs r :
  r ∉ theirs → backend_of (foldl (adopt this) h theirs) r = backend_of h r.
Proof.
  revert h. induction theirs as [|x theirs IH]; intros h Hnot; simpl; [done|].
  apply not_elem_of_cons in Hnot as [Hne Hnot].
  rewrite IH by done. by apply adopt_backend_ne.
Qed.

Lemma adopt_all_backend h this theirs s :
  s ∈ theirs →
  backend_of (foldl (adopt this) h theirs) s = (λ _, VObj this) <$> backend_of h s.
Proof.
  revert h. induction theirs as [|x theirs IH]; intros h Hin; simpl.
  - by apply elem_of_nil in Hin.
  - destruct (decide (s ∈ theirs)) as [Hs|Hs].
    + rewrite IH by done.
      destruct (decide (x = s)) as [->|Hne].
      * rewrite adopt_backend_eq. by destruct (backend_of h s).
      * by rewrite adopt_backend_ne.
    + apply elem_of_cons in Hin as [->|]; [|done].
      rewrite adopt_all_backend_other by done. apply adopt_backend_eq.
Qed.

Lemma adopt_all_diff h this theirs r :
  diff_of (foldl (adopt this) h theirs) r = diff_of h r.
Proof.
  revert h. induction theirs as [|x theirs IH]; intros h; simpl; [done|].
  rewrite IH. apply adopt_diff.
Qed.

Lemma adopt_all_transaction h this theirs r t :
  foldl (adopt this) h theirs !! r = Some (OTransaction t) ↔ h !! r = Some (OTransaction t).
Proof.
  revert h. induction theirs as [|x theirs IH]; intros h; simpl; [done|].
  rewrite IH. apply adopt_transaction.
Qed.

End adoption.

(** ** The body of applyTx *)

Section body.
  Implicit Types (h : heap) (this m s r : ref) (own theirs : list ref) (tx : value).

Lemma nested_registry_Some h tx theirs :
  nested_registry h tx = Some theirs ↔
  ∃ r t, tx = VObj r ∧ h !! r = Some (OTransaction t) ∧
         registry h (_snapshotManager t) = Some theirs.
Proof.
  unfold nested_registry. split.
  - destruct tx as [| | | | |r]; try done.
    destruct (h !! r) as [[| |t|]|] eqn:E; try done. eauto.
  - intros (r & t & -> & -> & H). done.
Qed.

Lemma nested_registry_instanceof h tx theirs :
  nested_registry h tx = Some theirs → instanceof_Transaction h tx = true.
Proof. intros (r & t & -> & H & _)%nested_registry_Some. simpl. by rewrite H. Qed.

(** When [tx] is a transaction and both registries are in place, the body
    runs both loops and returns. *)
Lemma applyTx_body_eq h this tx own theirs :
  registry h this = Some own →
  nested_registry h tx = Some theirs →
  applyTx_body h this tx =
    mkBody (foldl (adopt this) h theirs)
           ((λ snapshot, mkCall snapshot tx) <$> own)
           (Return ((λ snapshot, mkCall snapshot tx) <$> own)).
Proof.
  intros Hown Htheirs. unfold applyTx_body.
  by rewrite (nested_registry_instanceof _ _ _ Htheirs), Hown, Htheirs.
Qed.

Lemma applyTx_eq h this tx own theirs :
  registry h this = Some own →
  nested_registry h tx = Some theirs →
  applyTx h this tx =
    mkTask (foldl (adopt this) h theirs)
           ((λ snapshot, mkCall snapshot tx) <$> own)
           (replicate (length own) Pending)
           (Following (PromiseAll.create (length own))).
Proof.
  intros Hown Htheirs. unfold applyTx.
  rewrite (applyTx_body_eq _ _ _ _ _ Hown Htheirs). cbn.
  by rewrite !length_fmap.
Qed.

(** The nested registry of [tx] is the same list after the loops: the
    transaction object is not written, and its registry is either another
    object than [this], or [this] itself, to which only members are added. *)
Lemma applyTx_nested_registry h this tx own theirs :
  registry h this = Some own →
  nested_registry h tx = Some theirs →
  nested_registry (foldl (adopt this) h theirs) tx = Some theirs.
Proof.
  intros Hown Htheirs.
  destruct (proj1 (nested_registry_Some _ _ _) Htheirs) as (r & t & -> & Hr & Hm).
  apply nested_registry_Some. exists r, t. split_and!; [done| |].
  - by apply adopt_all_transaction.
  - destruct (decide (_snapshotManager t = this)) as [Heq|Hne].
    + rewrite Heq in *. rewrite (adopt_all_registry_this _ _ _ _ Hown).
      assert (own = theirs) as -> by congruence.
      f_equal. by apply add_all_members.
    + by rewrite adopt_all_registry_other.
Qed.

Lemma times_applied_absent s tx own :
  s ∉ own → times_applied s ((λ snapshot, mkCall snapshot tx) <$> own) = 0.
Proof.
  intros Hnot. unfold times_applied. induction own as [|x own IH]; [done|].
  apply not_elem_of_cons in Hnot as [Hne Hnot]. rewrite fmap_cons.
  rewrite filter_cons_False by (simpl; congruence). by apply IH.
Qed.

Lemma times_applied_member s tx own :
  NoDup own → s ∈ own → times_applied s ((λ snapshot, mkCall snapshot tx) <$> own) = 1.
Proof.
  intros Hnd Hin. unfold times_applied. induction Hnd as [|x own Hx Hnd IH].
  - by apply elem_of_nil in Hin.
  - rewrite fmap_cons. destruct (decide (x = s)) as [->|Hne].
    + rewrite filter_cons_True by done. simpl. f_equal.
      by apply (times_applied_absent s tx own).
    + rewrite filter_cons_False by (simpl; congruence).
      apply IH. apply elem_of_cons in Hin as [|]; [congruence|done].
Qed.

End body.

(** C1 (the code at the failing input): transaction [1] owns the registry
    [2]; committing [3] into it re-points snapshot [5], which was created
    against [3], to the registry object [2] itself and not to its owner
    [1]. *)
Theorem applyTx_backend_is_registry_not_owner :
  owns example_heap 1 2 ∧
  backend_of example_heap 5 = Some (VObj 3) ∧
  nested_registry example_heap (VObj 3) = Some [5] ∧
  backend_of (t_heap (applyTx example_heap 2 (VObj 3))) 5 = Some (VObj 2) ∧
  VObj 2 ≠ VObj 1.
Proof.
  split_and!; try reflexivity.
  - eexists. split; reflexivity.
  - discriminate.
Qed.

(** C3: [_apply(tx)] is called on the snapshots that are members of this
    registry when [applyTx(tx)] starts, in the order of the Set, with [tx]
    as argument, and on nothing else; a snapshot that the call adopts from
    the nested registry of [tx], not being a member before, is applied zero
    times, and a member exactly once. *)
Theorem applyTx_applies_own_only (h : heap) (this : ref) (tx : value)
    (own theirs : list ref) :
  registry h this = Some own →
  nested_registry h tx = Some theirs →
  NoDup own →
  let calls := t_calls (applyTx h this tx) in
  call_snapshot <$> calls = own ∧
  (∀ c, c ∈ calls → call_tx c = tx ∧ call_snapshot c ∈ own) ∧
  (∀ s, s ∈ theirs → s ∉ own → times_applied s calls = 0) ∧
  (∀ s, s ∈ own → times_applied s calls = 1).
Proof.
  intros Hown Htheirs Hnd. cbv zeta.
  rewrite (applyTx_eq _ _ _ _ _ Hown Htheirs). cbn [t_calls].
  split_and!.
  - rewrite <-list_fmap_compose. apply list_fmap_id.
  - intros c (s & -> & Hs)%list_elem_of_fmap. done.
  - intros s _ Hnot. by apply times_applied_absent.
  - intros s Hin. by apply times_applied_member.
Qed.

Lemma applyTx_applies_own_only_witness :
  call_snapshot <$> t_calls (applyTx example_heap 2 (VObj 3)) = [6] ∧
  times_applied 5 (t_calls (applyTx example_heap 2 (VObj 3))) = 0 ∧
  times_applied 6 (t_calls (applyTx example_heap 2 (VObj 3))) = 1.
Proof.
  assert (Hnd : NoDup [6]) by (apply NoDup_singleton).
  destruct (applyTx_applies_own_only example_heap 2 (VObj 3) [6] [5] eq_refl eq_refl Hnd)
    as (Hcalls & _ & Hzero & Hone).
  split_and!.
  - exact Hcalls.
  - apply Hzero; [by apply list_elem_of_singleton|].
    intros Hin%list_elem_of_singleton. discriminate.
  - apply Hone. by apply list_elem_of_singleton.
Defined.

(** C4 (as the code has it): after [applyTx(tx)] every snapshot of the
    nested registry of [tx] is a member of this registry, next to the
    members it had; the nested registry of [tx] is left as it was, so the
    snapshot is still a member of it. *)
Theorem applyTx_adds_and_keeps (h : heap) (this : ref) (tx : value)
    (own theirs : list ref) :
  registry h this = Some own →
  nested_registry h tx = Some theirs →
  let h' := t_heap (applyTx h this tx) in
  (∃ own', registry h' this = Some own' ∧
           ∀ s, s ∈ own' ↔ s ∈ own ∨ s ∈ theirs) ∧
  nested_registry h' tx = Some theirs.
Proof.
  intros Hown Htheirs. cbv zeta.
  rewrite (applyTx_eq _ _ _ _ _ Hown Htheirs). cbn [t_heap]. split.
  - exists (add_all own theirs). split.
    + by apply adopt_all_registry_this.
    + intros s. apply elem_of_add_all.
  - by apply (applyTx_nested_registry _ _ _ own).
Qed.

Lemma applyTx_adds_and_keeps_witness :
  (∃ own', registry (t_heap (applyTx example_heap 2 (VObj 3))) 2 = Some own' ∧
           ∀ s, s ∈ own' ↔ s ∈ [6] ∨ s ∈ [5]) ∧
  nested_registry (t_heap (applyTx example_heap 2 (VObj 3))) (VObj 3) = Some [5].
Proof. exact (applyTx_adds_and_keeps example_heap 2 (VObj 3) [6] [5] eq_refl eq_refl). Defined.

(** C4 (the claim as written fails): snapshot [5] of the nested registry of
    transaction [3] is still a member of that registry after
    [applyTx] has adopted it into registry [2]. *)
Lemma applyTx_does_not_remove_from_nested :
  nested_registry example_heap (VObj 3) = Some [5] ∧
  registry (t_heap (applyTx example_heap 2 (VObj 3))) 2 = Some [6; 5] ∧
  ¬ (∀ rest, nested_registry (t_heap (applyTx example_heap 2 (VObj 3))) (VObj 3) = Some rest →
             5 ∉ rest).
Proof.
  split_and!; try reflexivity.
  intros H. apply (H [5]); [reflexivity|]. by apply list_elem_of_singleton.
Qed.

(** ** Promise.all *)

Section promise_all.
  Implicit Types (caps : list (pstate value)) (p : PromiseAll.t) (i : nat) (v e : value).

Lemma unfulfilled_cons c caps :
  unfulfilled (c :: caps) =
    (match fulfilled_value c with None => 1 | Some _ => 0 end) + unfulfilled caps.
Proof.
  unfold unfulfilled. rewrite filter_cons.
  by destruct c.
Qed.

Lemma unfulfilled_replicate n : unfulfilled (replicate n Pending) = n.
Proof.
  induction n as [|n IH]; [done|].
  change (replicate (S n) Pending) with (@Pending value :: replicate n Pending).
  rewrite unfulfilled_cons, IH. done.
Qed.

Lemma unfulfilled_fulfil caps i v :
  caps !! i = Some Pending →
  S (unfulfilled (<[i := Fulfilled v]> caps)) = unfulfilled caps.
Proof.
  revert i. induction caps as [|c caps IH]; intros [|i] H; simplify_eq/=.
  - rewrite !unfulfilled_cons. simpl. lia.
  - rewrite !unfulfilled_cons. rewrite <-(IH i H). lia.
Qed.

Lemma unfulfilled_reject caps i e :
  caps !! i = Some Pending →
  unfulfilled (<[i := Rejected e]> caps) = unfulfilled caps.
Proof.
  revert i. induction caps as [|c caps IH]; intros [|i] H; simplify_eq/=.
  - by rewrite !unfulfilled_cons.
  - rewrite !unfulfilled_cons. by rewrite (IH i H).
Qed.

Lemma unfulfilled_0 caps :
  unfulfilled caps = 0 ↔ ∀ i c, caps !! i = Some c → ∃ v, c = Fulfilled v.
Proof.
  induction caps as [|c caps IH].
  - split; [by intros _ i c' ?|done].
  - rewrite unfulfilled_cons. split.
    + intros H [|i] c' Hc; simplify_eq/=.
      * destruct c'; simpl in H; [lia | eauto | lia].
      * apply (proj1 IH) with i; [|done]. destruct (fulfilled_value c); lia.
    + intros H. destruct (H 0 c eq_refl) as [v ->]. simpl.
      apply IH. intros i c' Hc. by apply (H (S i)).
Qed.

Lemma unfulfilled_pos caps :
  0 < unfulfilled caps → (∀ e, Rejected e ∉ caps) → ∃ i, caps !! i = Some Pending.
Proof.
  induction caps as [|c caps IH]; intros Hpos Hno.
  - unfold unfulfilled in Hpos. simpl in Hpos. lia.
  - destruct c as [|v|e].
    + by exists 0.
    + rewrite unfulfilled_cons in Hpos. simpl in Hpos.
      destruct IH as [i Hi]; [done| |by exists (S i)].
      intros e He. apply (Hno e). by right.
    + exfalso. apply (Hno e). by left.
Qed.

Lemma elem_of_insert_pending caps i (c c' : pstate value) :
  caps !! i = Some Pending → c ≠ Pending → c ∈ caps → c ∈ <[i := c']> caps.
Proof.
  intros Hi Hne (j & Hj)%list_elem_of_lookup. apply list_elem_of_lookup. exists j.
  rewrite list_lookup_insert_ne; [done|]. intros ->. congruence.
Qed.

Lemma elem_of_insert_inv caps i (c c' : pstate value) :
  c ∈ <[i := c']> caps → c = c' ∨ c ∈ caps.
Proof.
  intros (j & Hj)%list_elem_of_lookup.
  destruct (decide (i = j)) as [->|Hne].
  - destruct (decide (j < length caps)).
    + rewrite list_lookup_insert_eq in Hj by done. left. congruence.
    + rewrite list_insert_ge in Hj by lia. right. apply list_elem_of_lookup. eauto.
  - rewrite list_lookup_insert_ne in Hj by done. right. apply list_elem_of_lookup. eauto.
Qed.

Lemma all_inv_create n : all_inv (replicate n Pending) (PromiseAll.create n).
Proof.
  unfold all_inv, PromiseAll.create. cbn. rewrite fmap_replicate, unfulfilled_replicate.
  destruct n as [|n]; (split; [reflexivity|split; [reflexivity|]]).
  - done.
  - split; [lia|]. intros e [? _]%elem_of_replicate. done.
Qed.

Lemma all_inv_react caps p i o :
  caps !! i = Some Pending →
  all_inv caps p →
  all_inv (<[i := settle o]> caps) (PromiseAll.react i o p).
Proof.
  intros Hi (Hvals & Hrem & Hres). destruct o as [v|e]; simpl.
  - (* the element is fulfilled *)
    pose proof (unfulfilled_fulfil caps i v Hi) as Hcount.
    unfold all_inv, PromiseAll.resolve_element. cbn.
    rewrite Hvals, Hrem, <-Hcount, list_fmap_insert. cbn.
    split_and!; [done..|].
    destruct (PromiseAll.result p) as [|vs|e'] eqn:Hr.
    + destruct (unfulfilled (<[i:=Fulfilled v]> caps)) eqn:Hzero; cbn.
      * done.
      * split; [lia|]. intros e He. destruct (elem_of_insert_inv _ _ _ _ He) as [|Hin]; [done|].
        by apply (proj2 Hres e).
    + exfalso. destruct Hres as [Hzero _]. lia.
    + assert (Rejected e' ∈ <[i:=Fulfilled v]> caps) by (by apply elem_of_insert_pending).
      by destruct (unfulfilled (<[i:=Fulfilled v]> caps)).
  - (* the element is rejected *)
    pose proof (unfulfilled_reject caps i e Hi) as Hcount.
    unfold all_inv, PromiseAll.reject. cbn.
    rewrite Hvals, Hrem, Hcount, list_fmap_insert. cbn.
    split_and!.
    + symmetry. apply list_insert_id. by rewrite list_lookup_fmap, Hi.
    + done.
    + apply lookup_lt_Some in Hi as Hlt.
      destruct (PromiseAll.result p) as [|vs|e'] eqn:Hr.
      * by apply list_elem_of_insert.
      * exfalso. destruct Hres as [Hzero _].
        destruct (proj1 (unfulfilled_0 caps) Hzero i _ Hi). done.
      * by apply elem_of_insert_pending.
Qed.

End promise_all.

(** ** What happens after the body has returned *)

Section tasks.
  Implicit Types (h : heap) (t : task) (ev : event) (evs : list event) (e : value).

Lemma applyTx_body_applications h this tx applications :
  b_completion (applyTx_body h this tx) = Return applications →
  applications = b_calls (applyTx_body h this tx).
Proof.
  unfold applyTx_body.
  destruct (negb (instanceof_Transaction h tx)); [done|].
  destruct (registry h this); [|done].
  destruct (nested_registry h tx); [|done].
  cbn. congruence.
Qed.

Lemma applyTx_task_inv h this tx : task_inv (applyTx h this tx).
Proof.
  unfold task_inv, applyTx. cbn. rewrite length_replicate. split; [done|].
  destruct (b_completion (applyTx_body h this tx)) as [applications|e] eqn:Hb; [|done].
  apply applyTx_body_applications in Hb as ->. apply all_inv_create.
Qed.

Lemma deliver_task_inv t ev : task_inv t → task_inv (deliver t ev).
Proof.
  intros [Hlen Hall]. destruct ev as [i o|s k pre]; simpl.
  - destruct (t_captures t !! i) as [[| |]|] eqn:Hi; try done.
    split; cbn; [by rewrite length_insert|].
    destruct (t_returned t); [done|]. by apply all_inv_react.
  - by case_bool_decide.
Qed.

Lemma run_task_inv t evs : task_inv t → task_inv (run t evs).
Proof.
  unfold run. revert t. induction evs as [|ev evs IH]; intros t Ht; simpl; [done|].
  by apply IH, deliver_task_inv.
Qed.

Lemma run_app t evs1 evs2 : run t (evs1 ++ evs2) = run (run t evs1) evs2.
Proof. apply foldl_app. Qed.

Lemma capture_registry k pre s (h : heap) m :
  registry (alter (capture k pre) s h) m = registry h m.
Proof.
  unfold registry. rewrite lookup_alter. destruct (decide (s = m)) as [->|]; [|done].
  destruct (h !! m) as [[sn| | |]|]; simpl; try done.
  by destruct (_diff sn !! k).
Qed.

Lemma capture_backend k pre s (h : heap) r :
  backend_of (alter (capture k pre) s h) r = backend_of h r.
Proof.
  unfold backend_of. rewrite lookup_alter. destruct (decide (s = r)) as [->|]; [|done].
  destruct (h !! r) as [[sn| | |]|]; simpl; try done.
  by destruct (_diff sn !! k).
Qed.

Lemma deliver_registry t ev m : registry (t_heap (deliver t ev)) m = registry (t_heap t) m.
Proof.
  destruct ev as [i o|s k pre]; simpl.
  - by destruct (t_captures t !! i) as [[| |]|].
  - case_bool_decide; [|done]. apply capture_registry.
Qed.

Lemma deliver_backend t ev r : backend_of (t_heap (deliver t ev)) r = backend_of (t_heap t) r.
Proof.
  destruct ev as [i o|s k pre]; simpl.
  - by destruct (t_captures t !! i) as [[| |]|].
  - case_bool_decide; [|done]. apply capture_backend.
Qed.

Lemma deliver_calls t ev : t_calls (deliver t ev) = t_calls t.
Proof.
  destruct ev as [i o|s k pre]; simpl.
  - by destruct (t_captures t !! i) as [[| |]|].
  - by case_bool_decide.
Qed.

Lemma run_registry t evs m : registry (t_heap (run t evs)) m = registry (t_heap t) m.
Proof.
  unfold run. revert t. induction evs as [|ev evs IH]; intros t; simpl; [done|].
  by rewrite IH, deliver_registry.
Qed.

Lemma run_backend t evs r : backend_of (t_heap (run t evs)) r = backend_of (t_heap t) r.
Proof.
  unfold run. revert t. induction evs as [|ev evs IH]; intros t; simpl; [done|].
  by rewrite IH, deliver_backend.
Qed.

Lemma run_calls t evs : t_calls (run t evs) = t_calls t.
Proof.
  unfold run. revert t. induction evs as [|ev evs IH]; intros t; simpl; [done|].
  by rewrite IH, deliver_calls.
Qed.

(** A rejected promise stays rejected, with the same reason. *)
Lemma deliver_rejected t ev e :
  promise_state t = Rejected e → promise_state (deliver t ev) = Rejected e.
Proof.
  unfold promise_state. intros Hr. destruct ev as [i o|s k pre]; simpl.
  - destruct (t_captures t !! i) as [[| |]|]; try done. cbn.
    destruct (t_returned t) as [|p]; [done|].
    destruct o as [v|e']; cbn; rewrite Hr; [|done].
    by destruct (Init.Nat.pred (PromiseAll.remaining p)).
  - by case_bool_decide.
Qed.

Lemma run_rejected t evs e :
  promise_state t = Rejected e → promise_state (run t evs) = Rejected e.
Proof.
  unfold run. revert t. induction evs as [|ev evs IH]; intros t Ht; simpl; [done|].
  by apply IH, deliver_rejected.
Qed.

(** Once the promise is fulfilled every capture is settled, and no event
    changes the promises any more. *)
Lemma deliver_fulfilled t ev vs :
  task_inv t → promise_state t = Fulfilled vs → promise_state (deliver t ev) = Fulfilled vs.
Proof.
  intros [_ Hall] Hr. unfold promise_state in *. destruct ev as [i o|s k pre]; simpl.
  - destruct (t_captures t !! i) as [[| |]|] eqn:Hi; try done. exfalso.
    destruct (t_returned t) as [|p]; [done|].
    destruct Hall as (_ & _ & Hres). rewrite Hr in Hres. destruct Hres as [Hzero _].
    destruct (proj1 (unfulfilled_0 _) Hzero i _ Hi). done.
  - by case_bool_decide.
Qed.

(** The three states of the promise, read off the capture promises. *)
Lemma promise_state_cases t :
  task_inv t →
  match promise_state t with
  | Pending => (∃ i, t_captures t !! i = Some Pending) ∧ ∀ e, Rejected e ∉ t_captures t
  | Fulfilled vs =>
      ∀ i c, t_captures t !! i = Some c → ∃ v, c = Fulfilled v ∧ vs !! i = Some v
  | Rejected e =>
      t_returned t = BodyThrew e ∨ Rejected e ∈ t_captures t
  end.
Proof.
  intros [_ Hall]. unfold promise_state. destruct (t_returned t) as [e|p]; [by left|].
  destruct Hall as (_ & _ & Hres).
  destruct (PromiseAll.result p) as [|vs|e].
  - destruct Hres as [Hpos Hno]. split; [by apply unfulfilled_pos|done].
  - destruct Hres as [Hzero ->]. intros i c Hi.
    destruct (proj1 (unfulfilled_0 _) Hzero i c Hi) as [v ->]. exists v. split; [done|].
    unfold PromiseAll.collect. by rewrite !list_lookup_fmap, Hi.
  - by right.
Qed.

Lemma rejected_capture_rejects t i e :
  task_inv t →
  t_captures t !! i = Some (Rejected e) →
  ∃ e', promise_state t = Rejected e'.
Proof.
  intros Hinv Hi. pose proof (promise_state_cases t Hinv) as Hc.
  destruct (promise_state t) as [|vs|e'].
  - exfalso. apply (proj2 Hc e). apply list_elem_of_lookup. eauto.
  - destruct (Hc i _ Hi) as (v & ? & _). done.
  - eauto.
Qed.

End tasks.

(** The adopted snapshots, in the heap the body leaves behind. *)
Lemma applyTx_adopts (h : heap) (this : ref) (tx : value) (own theirs : list ref) (s : ref) :
  registry h this = Some own →
  nested_registry h tx = Some theirs →
  s ∈ theirs →
  (∃ own', registry (t_heap (applyTx h this tx)) this = Some own' ∧ s ∈ own') ∧
  backend_of (t_heap (applyTx h this tx)) s = (λ _, VObj this) <$> backend_of h s.
Proof.
  intros Hown Htheirs Hs. rewrite (applyTx_eq _ _ _ _ _ Hown Htheirs). cbn [t_heap]. split.
  - exists (add_all own theirs). split; [by apply adopt_all_registry_this|].
    apply elem_of_add_all. by right.
  - by apply adopt_all_backend.
Qed.

Section after_return.
  Implicit Types (h : heap) (t : task) (ev : event) (evs : list event) (e : value).

Lemma deliver_following t ev p :
  t_returned t = Following p → ∃ p', t_returned (deliver t ev) = Following p'.
Proof.
  intros Hp. destruct ev as [i o|s k pre]; simpl.
  - destruct (t_captures t !! i) as [[| |]|]; eauto. cbn. rewrite Hp. eauto.
  - case_bool_decide; eauto.
Qed.

Lemma run_following t evs p :
  t_returned t = Following p → ∃ p', t_returned (run t evs) = Following p'.
Proof.
  unfold run. revert t p. induction evs as [|ev evs IH]; intros t p Hp; simpl; [eauto|].
  destruct (deliver_following t ev p Hp) as [p' Hp']. by apply (IH _ p').
Qed.

Lemma run_captures_length t evs :
  task_inv t → length (t_captures (run t evs)) = length (t_calls t).
Proof.
  intros Hinv. destruct (run_task_inv t evs Hinv) as [Hlen _].
  by rewrite Hlen, run_calls.
Qed.

(** A task without calls is inert. *)
Lemma run_no_calls h evs r :
  run (mkTask h [] [] r) evs = mkTask h [] [] r.
Proof.
  unfold run. induction evs as [|ev evs IH]; simpl; [done|].
  by destruct ev as [i o|s k pre].
Qed.

End after_return.





(** C6 (as the code has it): as soon as one capture is rejected the promise
    of [applyTx] is rejected, never fulfilled; its reason is the reason of
    the first capture that was rejected, and it stays so whatever settles
    afterwards. *)
Theorem applyTx_first_rejection_wins (h : heap) (this : ref) (tx : value)
    (own theirs : list ref) (evs : list event) :
  registry h this = Some own →
  nested_registry h tx = Some theirs →
  let t := run (applyTx h this tx) evs in
  (∀ i e, t_captures t !! i = Some (Rejected e) →
          ∃ e', promise_state t = Rejected e' ∧ Rejected e' ∈ t_captures t) ∧
  (∀ i e evs',
     t_captures t !! i = Some Pending →
     (∀ e', Rejected e' ∉ t_captures t) →
     promise_state (run (applyTx h this tx) (evs ++ EvSettle i (Reject e) :: evs'))
       = Rejected e).
Proof.
  intros Hown Htheirs. cbv zeta.
  pose proof (run_task_inv _ evs (applyTx_task_inv h this tx)) as Hinv.
  destruct (run_following (applyTx h this tx) evs (PromiseAll.create (length own)))
    as [p Hp].
  { by rewrite (applyTx_eq _ _ _ _ _ Hown Htheirs). }
  split.
  - intros i e Hi. destruct (rejected_capture_rejects _ i e Hinv Hi) as [e' He'].
    exists e'. split; [done|].
    pose proof (promise_state_cases _ Hinv) as Hcases. rewrite He' in Hcases.
    destruct Hcases as [Hthrew|]; [congruence|done].
  - intros i e evs' Hi Hno. rewrite run_app.
    change (run ?t (?ev :: ?l)) with (run (deliver t ev) l).
    apply run_rejected.
    pose proof (promise_state_cases _ Hinv) as Hcases.
    unfold promise_state in *. simpl. rewrite Hi. cbn. rewrite Hp in *. cbn.
    destruct (PromiseAll.result p) as [|vs|e'].
    + done.
    + destruct (Hcases i _ Hi) as (v & ? & _). done.
    + exfalso. destruct Hcases as [|Hin]; [done|]. by apply (Hno e').
Qed.

Lemma applyTx_first_rejection_wins_witness :
  promise_state (run (applyTx example_heap2 2 (VObj 3))
                     ([EvSettle 0 (Fulfil VUndefined)] ++
                      EvSettle 1 (Reject (VStr "first")) :: [EvSettle 1 (Reject (VStr "late"))]))
    = Rejected (VStr "first").
Proof.
  apply (proj2 (applyTx_first_rejection_wins example_heap2 2 (VObj 3) [6; 7] [5]
                  [EvSettle 0 (Fulfil VUndefined)] eq_refl eq_refl)).
  - reflexivity.
  - intros e' Hin. vm_compute in Hin.
    apply elem_of_cons in Hin as [|Hin]; [done|].
    apply list_elem_of_singleton in Hin. done.
Defined.

(** C6 (the claim as written fails): both captures fail, [6] with "first"
    and then [7] with "second"; the caller of [applyTx] receives "first"
    alone, and the failure of [7] is reported nowhere. *)
Lemma applyTx_drops_later_rejection :
  let t := run (applyTx example_heap2 2 (VObj 3))
               [EvSettle 0 (Reject (VStr "first")); EvSettle 1 (Reject (VStr "second"))] in
  t_captures t !! 1 = Some (Rejected (VStr "second")) ∧
  promise_state t = Rejected (VStr "first") ∧
  promise_state t ≠ Rejected (VStr "second").
Proof. cbv zeta. split_and!; [reflexivity | reflexivity | discriminate]. Qed.

(** ** The commit *)

Lemma commit_deliver_inv (st : store) (c : commit_state) (ev : commit_event) :
  commit_inv st c → commit_inv st (commit_deliver c ev).
Proof.
  intros [Hinv Hst]. destruct ev as [e|]; simpl.
  - split; cbn; [by apply deliver_task_inv|].
    destruct Hst as [|[vs Hvs]]; [by left|]. right. exists vs. by apply deliver_fulfilled.
  - destruct (promise_state (c_task c)) as [|vs|e] eqn:Hp.
    + split; [done|]. destruct Hst as [|[? ?]]; [by left|done].
    + split; cbn; [done|]. right. eauto.
    + split; [done|]. destruct Hst as [|[? ?]]; [by left|done].
Qed.

Lemma commit_run_inv (st : store) (c : commit_state) (evs : list commit_event) :
  commit_inv st c → commit_inv st (commit_run c evs).
Proof.
  unfold commit_run. revert c. induction evs as [|ev evs IH]; intros c Hc; simpl; [done|].
  by apply IH, commit_deliver_inv.
Qed.

(** C2: when the capture of some snapshot has failed, the store is what it
    was before the commit: the write-set of [tx] has not been applied, in
    part or in whole, whatever else has happened. *)
Theorem commit_store_unchanged_on_capture_failure (h : heap) (st : store) (this : ref)
    (tx : value) (evs : list commit_event) (i : nat) (e : value) :
  let c := commit_run (commit h st this tx) evs in
  t_captures (c_task c) !! i = Some (Rejected e) →
  c_store c = st.
Proof.
  cbv zeta. intros Hi.
  destruct (commit_run_inv st (commit h st this tx) evs) as [Hinv Hst].
  { split; cbn; [apply applyTx_task_inv | by left]. }
  destruct Hst as [|[vs Hvs]]; [done|].
  destruct (rejected_capture_rejects _ i e Hinv Hi) as [e' He']. congruence.
Qed.

Lemma commit_store_unchanged_on_capture_failure_witness :
  c_store (commit_run (commit example_heap2 {["A"%string := "1"%string]} 2 (VObj 3))
             [CTask (EvSettle 0 (Fulfil VUndefined)); CWrite;
              CTask (EvSettle 1 (Reject (VStr "capture failed"))); CWrite])
  = {["A"%string := "1"%string]}.
Proof.
  apply (commit_store_unchanged_on_capture_failure example_heap2 _ 2 (VObj 3) _ 1
           (VStr "capture failed")).
  reflexivity.
Defined.

(** The same commit with both captures fulfilled does write the store. *)
Example commit_writes_after_captures :
  c_store (commit_run (commit example_heap2 {["A"%string := "1"%string]} 2 (VObj 3))
             [CTask (EvSettle 0 (Fulfil VUndefined)); CWrite;
              CTask (EvSettle 1 (Fulfil VUndefined)); CWrite]) !! "A"%string
  = Some "9"%string.
Proof. reflexivity. Qed.

(** ** applyTx: errors *)

(** C7: when [tx] is not a transaction, [applyTx(tx)] fails with the error
    the source throws for an invalid argument; [_apply] is called on no
    snapshot, and the heap, with every registry in it, is what it was at
    once and after any later event. *)
Theorem applyTx_rejects_non_transaction (h : heap) (this : ref) (tx : value)
    (evs : list event) :
  instanceof_Transaction h tx = false →
  let t := run (applyTx h this tx) evs in
  promise_state t = Rejected (VStr "Can only apply transactions") ∧
  t_calls t = [] ∧
  t_heap t = h ∧
  (∀ m, registry (t_heap t) m = registry h m).
Proof.
  intros Hno. cbv zeta.
  assert (applyTx h this tx = mkTask h [] [] (BodyThrew (VStr "Can only apply transactions")))
    as ->.
  { unfold applyTx, applyTx_body. by rewrite Hno. }
  rewrite run_no_calls. done.
Qed.

Lemma applyTx_rejects_non_transaction_witness :
  promise_state (run (applyTx example_heap 2 (VObj 6)) [EvSettle 0 (Fulfil VUndefined)])
    = Rejected (VStr "Can only apply transactions") ∧
  promise_state (run (applyTx example_heap 2 VUndefined) [])
    = Rejected (VStr "Can only apply transactions") ∧
  t_calls (run (applyTx example_heap 2 (VNum 7)) []) = [].
Proof.
  split_and!.
  - exact (proj1 (applyTx_rejects_non_transaction example_heap 2 (VObj 6)
                    [EvSettle 0 (Fulfil VUndefined)] eq_refl)).
  - exact (proj1 (applyTx_rejects_non_transaction example_heap 2 VUndefined [] eq_refl)).
  - exact (proj1 (proj2 (applyTx_rejects_non_transaction example_heap 2 (VNum 7) [] eq_refl))).
Defined.

(** C9: when a capture has been rejected and [applyTx(tx)] has failed, the
    adoption loop has run all the same: every snapshot of the nested registry
    of [tx] is a member of this registry, next to the former members, and its
    backend is [this]; nothing undoes it. *)
Theorem applyTx_adoption_survives_rejection (h : heap) (this : ref) (tx : value)
    (own theirs : list ref) (evs : list event) (i : nat) (e : value) :
  registry h this = Some own →
  nested_registry h tx = Some theirs →
  let t := run (applyTx h this tx) evs in
  t_captures t !! i = Some (Rejected e) →
  (∃ e', promise_state t = Rejected e') ∧
  (∃ own', registry (t_heap t) this = Some own' ∧
           ∀ s, s ∈ own' ↔ s ∈ own ∨ s ∈ theirs) ∧
  (∀ s, s ∈ theirs → backend_of (t_heap t) s = (λ _, VObj this) <$> backend_of h s).
Proof.
  intros Hown Htheirs. cbv zeta. intros Hi. split_and!.
  - apply (rejected_capture_rejects _ i e); [|done].
    apply run_task_inv, applyTx_task_inv.
  - rewrite run_registry, (applyTx_eq _ _ _ _ _ Hown Htheirs). cbn [t_heap].
    exists (add_all own theirs). split; [by apply adopt_all_registry_this|].
    intros s. apply elem_of_add_all.
  - intros s Hs. rewrite run_backend.
    by apply (applyTx_adopts h this tx own theirs s).
Qed.

Lemma applyTx_adoption_survives_rejection_witness :
  (∃ e', promise_state (run (applyTx example_heap2 2 (VObj 3))
                            [EvSettle 0 (Reject (VStr "capture failed"))]) = Rejected e') ∧
  registry (t_heap (run (applyTx example_heap2 2 (VObj 3))
                        [EvSettle 0 (Reject (VStr "capture failed"))])) 2 = Some [6; 7; 5] ∧
  backend_of (t_heap (run (applyTx example_heap2 2 (VObj 3))
                          [EvSettle 0 (Reject (VStr "capture failed"))])) 5 = Some (VObj 2).
Proof.
  destruct (applyTx_adoption_survives_rejection example_heap2 2 (VObj 3) [6; 7] [5]
              [EvSettle 0 (Reject (VStr "capture failed"))] 0 (VStr "capture failed")
              eq_refl eq_refl eq_refl) as (Hrej & _ & Hback).
  split_and!; [exact Hrej | reflexivity |].
  apply Hback. by apply list_elem_of_singleton.
Defined.

(** * Further properties of the registry *)

(** ** What the adoption loop writes *)

Section adoption_frame.
  Implicit Types (h : heap) (this m s r : ref) (own theirs : list ref).

(** Every object of the heap after the loop, by its kind before it. *)
Lemma adopt_all_lookup h this theirs r :
  foldl (adopt this) h theirs !! r =
    match h !! r with
    | Some (OSnapshot sn) =>
        Some (OSnapshot (if bool_decide (r ∈ theirs)
                         then mkSnapshot (_objectStore sn) (VObj this) (_diff sn)
                         else sn))
    | Some (OSnapshotManager sm) =>
        Some (OSnapshotManager (if bool_decide (r = this)
                                then mkSnapshotManager (add_all (_snapshots sm) theirs)
                                else sm))
    | o => o
    end.
Proof.
  revert h. induction theirs as [|x theirs IH]; intros h.
  - simpl. destruct (h !! r) as [[sn|[l]| |]|]; repeat case_bool_decide;
      simplify_eq/=; try done; exfalso; by eapply elem_of_nil.
  - cbn [foldl]. rewrite IH, adopt_lookup.
    destruct (h !! r) as [[sn|[l]|t|]|]; cbn;
      repeat case_decide; repeat case_bool_decide; simplify_eq/=;
      try done; exfalso;
      repeat match goal with
      | H : _ ∈ _ :: _ |- _ => apply elem_of_cons in H as [?|?]
      | H : _ ∉ _ :: _ |- _ => apply not_elem_of_cons in H as [? ?]
      end; done.
Qed.

Lemma add_all_idemp own theirs : add_all (add_all own theirs) theirs = add_all own theirs.
Proof. apply add_all_members. intros s Hs. apply elem_of_add_all. by right. Qed.

Lemma filter_ext_elem (P Q : ref → Prop) `{∀ x, Decision (P x)} `{∀ x, Decision (Q x)}
    (l : list ref) :
  (∀ y, y ∈ l → P y ↔ Q y) → filter P l = filter Q l.
Proof.
  induction l as [|a l IH]; intros Hext; [done|].
  rewrite !filter_cons. rewrite IH by (intros y Hy; apply Hext; by right).
  destruct (decide (P a)) as [Hp|Hp]; destruct (decide (Q a)) as [Hq|Hq]; try done;
    exfalso; apply (Hext a (list_elem_of_here _ _)) in Hp || apply (Hext a (list_elem_of_here _ _)) in Hq; done.
Qed.

Lemma add_all_order own theirs :
  NoDup theirs → add_all own theirs = own ++ filter (λ s, s ∉ own) theirs.
Proof.
  unfold add_all. revert own. induction theirs as [|x theirs IH]; intros own Hnd; simpl.
  - by rewrite app_nil_r.
  - apply NoDup_cons in Hnd as [Hx Hnd]. rewrite IH by done.
    destruct (decide (x ∈ own)) as [Hin|Hout].
    + rewrite JSSet_add_member by done.
      by rewrite filter_cons_False by (intros H; by apply H).
    + rewrite JSSet_add_fresh by done. rewrite filter_cons_True by done.
      rewrite <-app_assoc. simpl. do 2 f_equal.
      apply filter_ext_elem. intros y Hy. rewrite elem_of_app, list_elem_of_singleton.
      split; [tauto|]. intros Hn [?| ->]; done.
Qed.

End adoption_frame.

(** ** The constructor, the iterator and the empty registry *)

Lemma Symbol_iterator_registry (h : heap) (this : ref) (own : list ref) :
  registry h this = Some own → Symbol_iterator h this = Return own.
Proof. intros H. unfold Symbol_iterator. by rewrite H. Qed.

Lemma filter_all (P : ref → Prop) `{∀ x, Decision (P x)} (l : list ref) :
  (∀ y, y ∈ l → P y) → filter P l = l.
Proof.
  induction l as [|a l IH]; intros Hall; [done|].
  rewrite filter_cons_True by (apply Hall; by left).
  f_equal. apply IH. intros y Hy. apply Hall. by right.
Qed.

(** X1: a registry made by the constructor is a new object next to the
    objects there were, which are untouched; iterating it yields nothing, and
    [abortSnapshot] on it returns [false] for any snapshot and changes
    nothing. *)
Theorem new_SnapshotManager_empty (h : heap) :
  let created := new_SnapshotManager h in
  h !! created.2 = None ∧
  Symbol_iterator created.1 created.2 = Return [] ∧
  (∀ r, r ≠ created.2 → (created.1) !! r = h !! r) ∧
  (∀ s, abortSnapshot created.1 created.2 s = (created.1, Return false)).
Proof.
  cbv zeta. unfold new_SnapshotManager. cbn [fst snd]. split_and!.
  - apply not_elem_of_dom, is_fresh.
  - apply Symbol_iterator_registry, registry_insert_eq.
  - intros r Hr. by rewrite lookup_insert_ne.
  - intros s. rewrite (abortSnapshot_eq _ _ _ [] (registry_insert_eq _ _ _)).
    by rewrite insert_insert_eq.
Qed.

(** X2: on a registry without snapshots [applyTx(tx)] calls [_apply] on
    nothing and its promise is fulfilled with the empty array at once, and
    stays so; the snapshots of [tx] are adopted all the same, and the
    iterator yields them in the order of the registry of [tx]. *)
Theorem applyTx_empty_registry (h : heap) (this : ref) (tx : value)
    (theirs : list ref) (evs : list event) :
  registry h this = Some [] →
  nested_registry h tx = Some theirs →
  NoDup theirs →
  let t := run (applyTx h this tx) evs in
  t_calls t = [] ∧
  promise_state t = Fulfilled [] ∧
  Symbol_iterator (t_heap t) this = Return theirs.
Proof.
  intros Hown Htheirs Hnd. cbv zeta.
  rewrite (applyTx_eq _ _ _ _ _ Hown Htheirs). cbn [fmap list_fmap length replicate].
  rewrite run_no_calls. split_and!; [done..|]. cbn [t_heap].
  apply Symbol_iterator_registry.
  rewrite (adopt_all_registry_this _ _ _ _ Hown), add_all_order by done.
  cbn [app]. f_equal. apply filter_all. intros y _. apply not_elem_of_nil.
Qed.

Lemma applyTx_empty_registry_witness :
  promise_state (run (applyTx (<[2 := OSnapshotManager (mkSnapshotManager [])]> example_heap)
                              2 (VObj 3))
                     [EvSettle 0 (Reject VNull)]) = Fulfilled [] ∧
  Symbol_iterator
    (t_heap (run (applyTx (<[2 := OSnapshotManager (mkSnapshotManager [])]> example_heap)
                          2 (VObj 3))
                 [EvSettle 0 (Reject VNull)])) 2 = Return [5].
Proof.
  assert (Hnd : NoDup [5]) by apply NoDup_singleton.
  assert (Hown : registry (<[2 := OSnapshotManager (mkSnapshotManager [])]> example_heap) 2
                 = Some []) by reflexivity.
  destruct (applyTx_empty_registry
              (<[2 := OSnapshotManager (mkSnapshotManager [])]> example_heap) 2 (VObj 3) [5]
              [EvSettle 0 (Reject VNull)] Hown eq_refl Hnd) as (_ & Hp & Hi).
  split; assumption.
Defined.

(** ** Order and uniqueness of the members *)

(** X3: after [applyTx(tx)] the iterator yields the former members in their
    former order, followed by the snapshots of [tx] that were not members,
    in the order of the registry of [tx]. *)
Theorem applyTx_iteration_order (h : heap) (this : ref) (tx : value)
    (own theirs : list ref) (evs : list event) :
  registry h this = Some own →
  nested_registry h tx = Some theirs →
  NoDup theirs →
  Symbol_iterator (t_heap (run (applyTx h this tx) evs)) this
    = Return (own ++ filter (λ s, s ∉ own) theirs).
Proof.
  intros Hown Htheirs Hnd. apply Symbol_iterator_registry.
  rewrite run_registry, (applyTx_eq _ _ _ _ _ Hown Htheirs). cbn [t_heap].
  by rewrite (adopt_all_registry_this _ _ _ _ Hown), add_all_order.
Qed.

Lemma applyTx_iteration_order_witness :
  Symbol_iterator (t_heap (run (applyTx example_heap2 2 (VObj 3)) [])) 2 = Return [6; 7; 5].
Proof.
  assert (Hnd : NoDup [5]) by apply NoDup_singleton.
  exact (applyTx_iteration_order example_heap2 2 (VObj 3) [6; 7] [5] [] eq_refl eq_refl Hnd).
Defined.

(** X4: no operation of the registry makes the iterator yield a snapshot
    twice: when the members are pairwise distinct before [createSnapshot],
    [abortSnapshot] or [applyTx], they are so afterwards. *)
Theorem registry_stays_duplicate_free (h : heap) (this : ref) (own : list ref) :
  registry h this = Some own →
  NoDup own →
  (∀ objectStore backend,
     ∃ own', registry (createSnapshot h this objectStore backend).1 this = Some own' ∧
             NoDup own') ∧
  (∀ snapshot,
     ∃ own', registry (abortSnapshot h this snapshot).1 this = Some own' ∧ NoDup own') ∧
  (∀ tx theirs evs,
     nested_registry h tx = Some theirs →
     ∃ own', registry (t_heap (run (applyTx h this tx) evs)) this = Some own' ∧ NoDup own').
Proof.
  intros Hown Hnd. split_and!.
  - intros objectStore backend. rewrite (createSnapshot_eq _ _ _ _ _ Hown). cbn [fst].
    eexists. split; [apply registry_insert_eq|]. by apply JSSet_add_NoDup.
  - intros snapshot. rewrite (abortSnapshot_eq _ _ _ _ Hown). cbn [fst].
    eexists. split; [apply registry_insert_eq|]. by apply NoDup_filter.
  - intros tx theirs evs Htheirs.
    rewrite run_registry, (applyTx_eq _ _ _ _ _ Hown Htheirs). cbn [t_heap].
    eexists. split; [by apply adopt_all_registry_this|]. by apply add_all_NoDup.
Qed.

Lemma registry_stays_duplicate_free_witness :
  ∃ own', registry (t_heap (run (applyTx example_heap2 2 (VObj 3)) [])) 2 = Some own' ∧
          NoDup own'.
Proof.
  assert (Hnd : NoDup [6; 7]).
  { apply NoDup_cons. split; [|apply NoDup_singleton].
    intros Hin%list_elem_of_singleton. discriminate. }
  destruct (registry_stays_duplicate_free example_heap2 2 [6; 7] eq_refl Hnd) as (_ & _ & Happly).
  exact (Happly (VObj 3) [5] [] eq_refl).
Defined.

(** ** createSnapshot and abortSnapshot together *)

(** X5: aborting the snapshot that [createSnapshot] has just returned
    reports [true] and gives the registry the members, in the order, it had
    before the snapshot was created. *)
Theorem create_then_abort (h : heap) (this : ref) (own : list ref)
    (objectStore backend : value) :
  registry h this = Some own →
  Forall (λ s, is_Some (h !! s)) own →
  let created := createSnapshot h this objectStore backend in
  ∃ snapshot,
    created.2 = Return snapshot ∧
    (abortSnapshot created.1 this snapshot).2 = Return true ∧
    registry (abortSnapshot created.1 this snapshot).1 this = Some own.
Proof.
  intros Hown Hlive. cbv zeta. rewrite (createSnapshot_eq _ _ _ _ _ Hown). cbn [fst snd].
  assert (Hnew : fresh (dom h) ∉ own).
  { intros Hin. rewrite Forall_forall in Hlive. destruct (Hlive _ Hin) as [o Ho].
    apply (is_fresh (dom h)), elem_of_dom. eauto. }
  exists (fresh (dom h)). split; [done|].
  rewrite (abortSnapshot_eq _ _ _ _ (registry_insert_eq _ _ _)). cbn [fst snd].
  rewrite JSSet_add_fresh by done. split.
  - f_equal. apply bool_decide_eq_true_2, elem_of_app. right. by apply list_elem_of_singleton.
  - rewrite registry_insert_eq. f_equal. rewrite filter_app.
    pose proof (JSSet_delete_absent _ _ Hnew) as Hsame.
    unfold JSSet.delete in Hsame. cbn [fst] in Hsame. rewrite Hsame.
    rewrite filter_cons_False by (intros H; by apply H). by rewrite app_nil_r.
Qed.

Lemma create_then_abort_witness :
  ∃ snapshot,
    (createSnapshot example_heap2 2 VNull (VObj 1)).2 = Return snapshot ∧
    (abortSnapshot (createSnapshot example_heap2 2 VNull (VObj 1)).1 2 snapshot).2
      = Return true ∧
    registry (abortSnapshot (createSnapshot example_heap2 2 VNull (VObj 1)).1 2 snapshot).1 2
      = Some [6; 7].
Proof.
  assert (Hlive : Forall (λ s, is_Some (example_heap2 !! s)) [6; 7]).
  { repeat constructor; by eexists. }
  exact (create_then_abort example_heap2 2 [6; 7] VNull (VObj 1) eq_refl Hlive).
Defined.

(** X6: two calls of [createSnapshot] return two different snapshots; both
    are members, after the former members and in the order of creation, and
    each has the backend it was created with. *)
Theorem create_twice_distinct (h : heap) (this : ref) (own : list ref)
    (objectStore1 backend1 objectStore2 backend2 : value) :
  registry h this = Some own →
  Forall (λ s, is_Some (h !! s)) own →
  let first := createSnapshot h this objectStore1 backend1 in
  let second := createSnapshot first.1 this objectStore2 backend2 in
  ∃ s1 s2,
    first.2 = Return s1 ∧ second.2 = Return s2 ∧ s1 ≠ s2 ∧
    Symbol_iterator second.1 this = Return (own ++ [s1; s2]) ∧
    backend_of second.1 s1 = Some backend1 ∧
    backend_of second.1 s2 = Some backend2.
Proof.
  intros Hown Hlive. cbv zeta. rewrite (createSnapshot_eq _ _ _ _ _ Hown). cbn [fst snd].
  set (s1 := fresh (dom h)).
  assert (Hs1 : s1 ∉ own).
  { intros Hin. rewrite Forall_forall in Hlive. destruct (Hlive _ Hin) as [o Ho].
    apply (is_fresh (dom h)), elem_of_dom. eauto. }
  assert (Hthis : s1 ≠ this).
  { intros Heq. apply registry_Some in Hown.
    apply (is_fresh (dom h)), elem_of_dom. fold s1. rewrite Heq. eauto. }
  rewrite JSSet_add_fresh by done.
  set (h1 := <[this := _]> (<[s1 := _]> h)).
  assert (Hown1 : registry h1 this = Some (own ++ [s1])) by apply registry_insert_eq.
  rewrite (createSnapshot_eq _ _ _ _ _ Hown1). cbn [fst snd].
  set (s2 := fresh (dom h1)).
  assert (Hfresh2 : h1 !! s2 = None) by apply not_elem_of_dom, is_fresh.
  assert (Hne : s1 ≠ s2).
  { intros Heq. rewrite <-Heq in Hfresh2. unfold h1 in Hfresh2.
    rewrite lookup_insert_ne, lookup_insert_eq in Hfresh2 by done. done. }
  assert (Hthis2 : s2 ≠ this).
  { intros Heq. rewrite Heq in Hfresh2. unfold h1 in Hfresh2.
    by rewrite lookup_insert_eq in Hfresh2. }
  assert (Hs2 : s2 ∉ own ++ [s1]).
  { rewrite elem_of_app, list_elem_of_singleton. intros [Hin|Heq]; [|by apply Hne].
    rewrite Forall_forall in Hlive. destruct (Hlive _ Hin) as [o Ho].
    unfold h1 in Hfresh2.
    rewrite lookup_insert_ne in Hfresh2 by done.
    rewrite lookup_insert_ne in Hfresh2 by (intros <-; by apply Hs1).
    congruence. }
  exists s1, s2. split_and!; try done.
  - apply Symbol_iterator_registry. rewrite registry_insert_eq.
    rewrite JSSet_add_fresh by done. by rewrite <-app_assoc.
  - unfold backend_of. rewrite lookup_insert_ne by done.
    rewrite lookup_insert_ne by done. unfold h1.
    rewrite lookup_insert_ne by done. by rewrite lookup_insert_eq.
  - unfold backend_of. rewrite lookup_insert_ne by done. by rewrite lookup_insert_eq.
Qed.

Lemma create_twice_distinct_witness :
  ∃ s1 s2,
    (createSnapshot example_heap 2 VNull (VObj 1)).2 = Return s1 ∧
    (createSnapshot (createSnapshot example_heap 2 VNull (VObj 1)).1 2 VNull (VObj 0)).2
      = Return s2 ∧
    s1 ≠ s2.
Proof.
  assert (Hlive : Forall (λ s, is_Some (example_heap !! s)) [6]).
  { repeat constructor; by eexists. }
  destruct (create_twice_distinct example_heap 2 [6] VNull (VObj 1) VNull (VObj 0) eq_refl Hlive)
    as (s1 & s2 & H1 & H2 & Hne & _).
  eauto.
Defined.

(** ** applyTx and the operations around it *)

(** X7: a snapshot adopted by [applyTx(tx)] is fed the transactions applied
    afterwards: the next [applyTx(tx2)] on this registry calls [_apply(tx2)]
    on the former members and on the adopted snapshots, in the order of the
    iterator. *)
Theorem adopted_snapshots_receive_later_transactions (h : heap) (this : ref)
    (tx tx2 : value) (own theirs theirs2 : list ref) (evs : list event) :
  registry h this = Some own →
  nested_registry h tx = Some theirs →
  let h' := t_heap (run (applyTx h this tx) evs) in
  nested_registry h' tx2 = Some theirs2 →
  let calls := t_calls (applyTx h' this tx2) in
  Return (call_snapshot <$> calls) = Symbol_iterator h' this ∧
  (∀ s, s ∈ own ∨ s ∈ theirs ↔ mkCall s tx2 ∈ calls).
Proof.
  intros Hown Htheirs. cbv zeta. intros Htheirs2.
  assert (Hown' : registry (t_heap (run (applyTx h this tx) evs)) this
                  = Some (add_all own theirs)).
  { rewrite run_registry, (applyTx_eq _ _ _ _ _ Hown Htheirs). cbn [t_heap].
    by apply adopt_all_registry_this. }
  rewrite (applyTx_eq _ _ _ _ _ Hown' Htheirs2). cbn [t_calls].
  rewrite (Symbol_iterator_registry _ _ _ Hown'). split.
  - f_equal. rewrite <-list_fmap_compose. apply list_fmap_id.
  - intros s. rewrite <-elem_of_add_all. split.
    + intros Hs. by apply (list_elem_of_fmap_2 (λ snapshot, mkCall snapshot tx2)).
    + intros (s' & [= ->] & Hs')%list_elem_of_fmap. done.
Qed.

Lemma adopted_snapshots_receive_later_transactions_witness :
  mkCall 5 (VObj 3) ∈ t_calls (applyTx (t_heap (run (applyTx example_heap 2 (VObj 3)) []))
                                       2 (VObj 3)).
Proof.
  apply (adopted_snapshots_receive_later_transactions example_heap 2 (VObj 3) (VObj 3)
           [6] [5] [5] [] eq_refl eq_refl eq_refl).
  right. by apply list_elem_of_singleton.
Defined.

(** X8: after [abortSnapshot(s)] the next [applyTx(tx)] does not call
    [_apply] on [s], and calls it on every other member; [s] is a member
    again afterwards exactly when it is registered with [tx]. *)
Theorem aborted_snapshot_not_applied (h : heap) (this s : ref) (tx : value)
    (own theirs : list ref) :
  registry h this = Some own →
  let h1 := (abortSnapshot h this s).1 in
  nested_registry h1 tx = Some theirs →
  let t := applyTx h1 this tx in
  times_applied s (t_calls t) = 0 ∧
  (∀ s', s' ∈ own → s' ≠ s → mkCall s' tx ∈ t_calls t) ∧
  (∃ own', registry (t_heap t) this = Some own' ∧ (s ∈ own' ↔ s ∈ theirs)).
Proof.
  intros Hown. cbv zeta. rewrite (abortSnapshot_eq _ _ _ _ Hown). cbn [fst].
  intros Htheirs.
  rewrite (applyTx_eq _ _ _ _ _ (registry_insert_eq _ _ _) Htheirs). cbn [t_calls t_heap].
  assert (Hgone : s ∉ filter (λ y, y ≠ s) own).
  { rewrite list_elem_of_filter. intros [Hne _]. by apply Hne. }
  split_and!.
  - by apply times_applied_absent.
  - intros s' Hin Hne. apply (list_elem_of_fmap_2 (λ snapshot, mkCall snapshot tx)).
    by apply list_elem_of_filter.
  - eexists. split; [apply adopt_all_registry_this, registry_insert_eq|].
    rewrite elem_of_add_all. tauto.
Qed.

Lemma aborted_snapshot_not_applied_witness :
  times_applied 6 (t_calls (applyTx (abortSnapshot example_heap2 2 6).1 2 (VObj 3))) = 0 ∧
  mkCall 7 (VObj 3) ∈ t_calls (applyTx (abortSnapshot example_heap2 2 6).1 2 (VObj 3)).
Proof.
  destruct (aborted_snapshot_not_applied example_heap2 2 6 (VObj 3) [6; 7] [5] eq_refl eq_refl)
    as (Hzero & Hothers & _).
  split; [exact Hzero|]. apply Hothers; [|discriminate].
  apply elem_of_cons. right. by apply list_elem_of_singleton.
Defined.

(** X9: [applyTx(tx)] writes the registry object and the [_backend] of the
    snapshots registered with [tx], and nothing else: every other object is
    the same object afterwards, no diff changes, and of an adopted snapshot
    only [_backend] does. *)
Theorem applyTx_frame (h : heap) (this : ref) (tx : value) (own theirs : list ref) :
  registry h this = Some own →
  nested_registry h tx = Some theirs →
  let h' := t_heap (applyTx h this tx) in
  (∀ r, r ≠ this → r ∉ theirs → h' !! r = h !! r) ∧
  (∀ s, diff_of h' s = diff_of h s) ∧
  (∀ s sn, h !! s = Some (OSnapshot sn) → s ∈ theirs →
           h' !! s = Some (OSnapshot (mkSnapshot (_objectStore sn) (VObj this) (_diff sn)))) ∧
  (∀ m, m ≠ this → registry h' m = registry h m).
Proof.
  intros Hown Htheirs. cbv zeta.
  rewrite (applyTx_eq _ _ _ _ _ Hown Htheirs). cbn [t_heap]. split_and!.
  - intros r Hne Hnot. rewrite adopt_all_lookup.
    destruct (h !! r) as [[sn|[l]|t|]|]; try done.
    + by rewrite bool_decide_eq_false_2.
    + by rewrite bool_decide_eq_false_2.
  - intros s. apply adopt_all_diff.
  - intros s sn Hs Hin. rewrite adopt_all_lookup, Hs. by rewrite bool_decide_eq_true_2.
  - intros m Hne. by apply adopt_all_registry_other.
Qed.

Lemma applyTx_frame_witness :
  t_heap (applyTx example_heap2 2 (VObj 3)) !! 6 = example_heap2 !! 6 ∧
  diff_of (t_heap (applyTx example_heap2 2 (VObj 3))) 5 = diff_of example_heap2 5.
Proof.
  destruct (applyTx_frame example_heap2 2 (VObj 3) [6; 7] [5] eq_refl eq_refl)
    as (Hother & Hdiff & _).
  split; [|apply Hdiff]. apply Hother; [discriminate|].
  intros Hin%list_elem_of_singleton. discriminate.
Defined.

(** X10: applying the same transaction a second time leaves the heap the
    first application produced exactly as it is: the adopted snapshots are
    members already and their backend is [this] already. *)
Theorem applyTx_twice_same_heap (h : heap) (this : ref) (tx : value)
    (own theirs : list ref) :
  registry h this = Some own →
  nested_registry h tx = Some theirs →
  let h' := t_heap (applyTx h this tx) in
  t_heap (applyTx h' this tx) = h'.
Proof.
  intros Hown Htheirs. cbv zeta.
  rewrite (applyTx_eq _ _ _ _ _ Hown Htheirs). cbn [t_heap].
  pose proof (adopt_all_registry_this _ _ _ theirs Hown) as Hown'.
  pose proof (applyTx_nested_registry _ _ _ _ _ Hown Htheirs) as Htheirs'.
  rewrite (applyTx_eq _ _ _ _ _ Hown' Htheirs'). cbn [t_heap].
  apply map_eq. intros r. rewrite !adopt_all_lookup.
  destruct (h !! r) as [[sn|[l]|t|]|]; try done.
  - by case_bool_decide.
  - case_bool_decide; [|done]. cbn. by rewrite add_all_idemp.
Qed.

Lemma applyTx_twice_same_heap_witness :
  t_heap (applyTx (t_heap (applyTx example_heap2 2 (VObj 3))) 2 (VObj 3))
  = t_heap (applyTx example_heap2 2 (VObj 3)).
Proof. exact (applyTx_twice_same_heap example_heap2 2 (VObj 3) [6; 7] [5] eq_refl eq_refl). Defined.



(** ** The promise of applyTx, read from the captures *)

(** X12: as soon as every capture has been fulfilled the promise of
    [applyTx] is fulfilled, in whatever order the captures settled; its
    array has one value per member, the value of the i-th member's capture at
    index i. *)
Theorem applyTx_fulfilled_when_all_fulfilled (h : heap) (this : ref) (tx : value)
    (own theirs : list ref) (evs : list event) :
  registry h this = Some own →
  nested_registry h tx = Some theirs →
  let t := run (applyTx h this tx) evs in
  (∀ i c, t_captures t !! i = Some c → ∃ v, c = Fulfilled v) →
  ∃ vs, promise_state t = Fulfilled vs ∧
        length vs = length own ∧
        ∀ i v, t_captures t !! i = Some (Fulfilled v) → vs !! i = Some v.
Proof.
  intros Hown Htheirs. cbv zeta. intros Hall.
  pose proof (run_task_inv _ evs (applyTx_task_inv h this tx)) as Hinv.
  pose proof (promise_state_cases _ Hinv) as Hcases.
  destruct (run_following (applyTx h this tx) evs (PromiseAll.create (length own)))
    as [p Hp].
  { by rewrite (applyTx_eq _ _ _ _ _ Hown Htheirs). }
  assert (Hlen : length (t_captures (run (applyTx h this tx) evs)) = length own).
  { rewrite run_captures_length by apply applyTx_task_inv.
    rewrite (applyTx_eq _ _ _ _ _ Hown Htheirs). cbn [t_calls]. apply length_fmap. }
  destruct (promise_state (run (applyTx h this tx) evs)) as [|vs|e] eqn:Hstate.
  - destruct Hcases as [[i Hi] _]. destruct (Hall i _ Hi). done.
  - exists vs. split_and!; [done| |].
    + destruct Hinv as [_ Hinv]. unfold promise_state in Hstate. rewrite Hp in *.
      destruct Hinv as (_ & _ & Hres). rewrite Hstate in Hres. destruct Hres as [_ ->].
      unfold PromiseAll.collect. by rewrite !length_fmap.
    + intros i v Hi. destruct (Hcases i _ Hi) as (v' & [= <-] & Hv). done.
  - destruct Hcases as [Hthrew|Hin]; [congruence|].
    apply list_elem_of_lookup in Hin as [i Hi]. destruct (Hall i _ Hi). done.
Qed.

Lemma applyTx_fulfilled_when_all_fulfilled_witness :
  ∃ vs, promise_state (run (applyTx example_heap2 2 (VObj 3))
                           [EvSettle 1 (Fulfil (VNum 1)); EvSettle 0 (Fulfil (VNum 0))])
        = Fulfilled vs ∧ length vs = 2.
Proof.
  destruct (applyTx_fulfilled_when_all_fulfilled example_heap2 2 (VObj 3) [6; 7] [5]
              [EvSettle 1 (Fulfil (VNum 1)); EvSettle 0 (Fulfil (VNum 0))] eq_refl eq_refl)
    as (vs & Hvs & Hlen & _).
  - intros [|[|i]] c Hc; vm_compute in Hc; simplify_eq; eauto.
  - eauto.
Defined.

(** X13: the promise of [applyTx] is pending exactly while no capture has
    been rejected and at least one is still pending. *)
Theorem applyTx_pending_iff (h : heap) (this : ref) (tx : value)
    (own theirs : list ref) (evs : list event) :
  registry h this = Some own →
  nested_registry h tx = Some theirs →
  let t := run (applyTx h this tx) evs in
  promise_state t = Pending ↔
  (∃ i, t_captures t !! i = Some Pending) ∧ (∀ e, Rejected e ∉ t_captures t).
Proof.
  intros Hown Htheirs. cbv zeta.
  pose proof (run_task_inv _ evs (applyTx_task_inv h this tx)) as Hinv.
  pose proof (promise_state_cases _ Hinv) as Hcases.
  destruct (run_following (applyTx h this tx) evs (PromiseAll.create (length own)))
    as [p Hp].
  { by rewrite (applyTx_eq _ _ _ _ _ Hown Htheirs). }
  destruct (promise_state (run (applyTx h this tx) evs)) as [|vs|e] eqn:Hstate.
  - done.
  - split; [done|]. intros [[i Hi] _]. destruct (Hcases i _ Hi) as (v & ? & _). done.
  - split; [done|]. intros [_ Hno]. destruct Hcases as [Hthrew|Hin]; [congruence|].
    by destruct (Hno e).
Qed.

Lemma applyTx_pending_iff_witness :
  promise_state (run (applyTx example_heap2 2 (VObj 3)) [EvSettle 0 (Fulfil VNull)]) = Pending.
Proof.
  apply (applyTx_pending_iff example_heap2 2 (VObj 3) [6; 7] [5] [EvSettle 0 (Fulfil VNull)]
           eq_refl eq_refl).
  split.
  - by exists 1.
  - intros e Hin. vm_compute in Hin.
    apply elem_of_cons in Hin as [|Hin]; [done|].
    apply list_elem_of_singleton in Hin. done.
Defined.

Lemma run_fulfilled (t : task) (evs : list event) (vs : list value) :
  task_inv t → promise_state t = Fulfilled vs → promise_state (run t evs) = Fulfilled vs.
Proof.
  unfold run. revert t. induction evs as [|ev evs IH]; intros t Hinv Hvs; simpl; [done|].
  apply IH; [by apply deliver_task_inv | by apply deliver_fulfilled].
Qed.

(** X14: once the promise of [applyTx] is settled, fulfilled or rejected, no
    later event changes its state: neither a capture that settles afterwards
    nor a capture that still writes a diff. *)
Theorem applyTx_settles_once (h : heap) (this : ref) (tx : value)
    (evs evs' : list event) :
  promise_state (run (applyTx h this tx) evs) ≠ Pending →
  promise_state (run (applyTx h this tx) (evs ++ evs'))
    = promise_state (run (applyTx h this tx) evs).
Proof.
  intros Hsettled. rewrite run_app.
  pose proof (run_task_inv _ evs (applyTx_task_inv h this tx)) as Hinv.
  destruct (promise_state (run (applyTx h this tx) evs)) as [|vs|e] eqn:Hstate.
  - done.
  - by apply run_fulfilled.
  - by apply run_rejected.
Qed.

Lemma applyTx_settles_once_witness :
  promise_state (run (applyTx example_heap2 2 (VObj 3))
                     ([EvSettle 1 (Reject VNull)] ++
                      [EvSettle 0 (Fulfil VNull); EvCapture 6 "A" None]))
  = promise_state (run (applyTx example_heap2 2 (VObj 3)) [EvSettle 1 (Reject VNull)]).
Proof.
  apply (applyTx_settles_once example_heap2 2 (VObj 3) [EvSettle 1 (Reject VNull)]).
  discriminate.
Defined.

(** X15: [abortSnapshot(s)] for a snapshot that is not a member returns
    [false] and leaves the whole heap as it is, the other registries
    included: a snapshot registered elsewhere stays registered there. *)
Theorem abortSnapshot_not_member (h : heap) (this s : ref) (own : list ref) :
  registry h this = Some own →
  s ∉ own →
  abortSnapshot h this s = (h, Return false).
Proof.
  intros Hown Hnot. rewrite (abortSnapshot_eq _ _ _ _ Hown).
  pose proof (JSSet_delete_absent _ _ Hnot) as Hsame.
  unfold JSSet.delete in Hsame. cbn [fst] in Hsame. rewrite Hsame.
  rewrite bool_decide_eq_false_2 by done. f_equal.
  apply insert_id. by apply registry_Some.
Qed.

Lemma abortSnapshot_not_member_witness :
  abortSnapshot example_heap 2 5 = (example_heap, Return false).
Proof.
  apply (abortSnapshot_not_member example_heap 2 5 [6] eq_refl).
  intros Hin%list_elem_of_singleton. discriminate.
Defined.
